(** * PySC2 A3C agent: advantage estimation, action codec and observation
      encoder of [Agents/PySC2_A3C_Agent.py]

    Numbers.  The Python code computes on NumPy floats.  Here every float is
    an exact rational ([Q]); comparisons are by value ([Qeq_bool],
    [Qle_bool]), as [==], [!=] and [>] compare floats.  Integers are [Z] or
    [nat], strings are [string].  The decay of the units seen, whose
    behaviour in the long run depends on rounding, is also given on binary64
    numbers ([decay_step_f64]).

    Errors.  A Python exception is a value of [pyerr]; a computation that may
    raise has type [result A].

    Randomness.  [np.random.choice] consumes one uniform draw of the global
    generator; code that samples has type [Rand A] and threads the position
    in the stream of draws. *)

From Stdlib Require Import PrimFloat.
From Stdlib Require Import String List ZArith QArith Qabs Lia Lqa Bool Arith.
Import ListNotations.

Local Open Scope Q_scope.

(** ** Python values and exceptions *)

Inductive pyerr : Type :=
| IndexError
| KeyError
| ValueError.

Definition result (A : Type) : Type := (A + pyerr)%type.

Definition ret {A : Type} (a : A) : result A := inl a.
Definition raise {A : Type} (e : pyerr) : result A := inr e.

Definition bind {A B : Type} (m : result A) (k : A -> result B) : result B :=
  match m with
  | inl a => k a
  | inr e => inr e
  end.

Notation "x <- m ;; k" := (bind m (fun x => k))
  (at level 61, m at next level, right associativity).

(** [l[i]] for a non-negative index. *)
Definition index {A : Type} (l : list A) (i : nat) : result A :=
  match nth_error l i with
  | Some a => ret a
  | None => raise IndexError
  end.

(** Position written by [l[z] += ...] for a Python integer [z]: a negative
    index counts from the end. *)
Definition py_position (n : nat) (z : Z) : result nat :=
  if (0 <=? z)%Z
  then if (z <? Z.of_nat n)%Z then ret (Z.to_nat z) else raise IndexError
  else if (- Z.of_nat n <=? z)%Z
       then ret (Z.to_nat (Z.of_nat n + z))
       else raise IndexError.

Fixpoint set_nth {A : Type} (l : list A) (i : nat) (a : A) : list A :=
  match l, i with
  | [], _ => []
  | _ :: l', O => a :: l'
  | x :: l', S i' => x :: set_nth l' i' a
  end.

(** ** Floats as rationals *)

Definition Qltb (a b : Q) : bool := negb (Qle_bool b a).

(** The builtin [max(a, b)]: [b] when [b > a], otherwise [a]. *)
Definition pymax (a b : Q) : Q := if Qltb a b then b else a.

(** [np.sum]. *)
Definition np_sum (l : list Q) : Q := fold_right Qplus 0 l.

(** [np.zeros(n)]. *)
Definition np_zeros (n : nat) : list Q := repeat 0 n.

(** [np.prod] of a shape. *)
Definition np_prod (shape : list nat) : nat := fold_right Nat.mul 1%nat shape.

(** ** [scipy.signal.lfilter] and [discount]

    [lfilter(b, a, x)] is the filter of the difference equation
    [a[0]*y[n] = b[0]*x[n] + b[1]*x[n-1] + ... - a[1]*y[n-1] - ...];
    [xh] and [yh] are the inputs and outputs seen so far, latest first. *)

Fixpoint dot (c h : list Q) : Q :=
  match c, h with
  | c0 :: c', h0 :: h' => c0 * h0 + dot c' h'
  | _, _ => 0
  end.

Fixpoint lfilter_from (b a xh yh x : list Q) : list Q :=
  match x with
  | [] => []
  | xn :: x' =>
      let xh' := xn :: xh in
      let yn := (dot b xh' - dot (tl a) yh) / hd 1 a in
      yn :: lfilter_from b a xh' (yn :: yh) x'
  end.

Definition lfilter (b a x : list Q) : list Q := lfilter_from b a [] [] x.

(** [scipy.signal.lfilter([1], [1, -gamma], x[::-1], axis=0)[::-1]] *)
Definition discount (x : list Q) (gamma : Q) : list Q :=
  rev (lfilter [1] [1; - gamma] (rev x)).

(** The recurrence of the specification, [y[i] = x[i] + gamma*y[i+1]] with
    [y[n] = 0], written as the text has it; compared with [discount] below. *)
Fixpoint discount_spec (x : list Q) (gamma : Q) : list Q :=
  match x with
  | [] => []
  | xi :: x' =>
      let y' := discount_spec x' gamma in
      (xi + gamma * hd 0 y') :: y'
  end.

(** The forward first-order recurrence [y[n] = x[n] + gamma*y[n-1]] the
    filter runs on the reversed sequence. *)
Fixpoint iir1 (gamma yprev : Q) (x : list Q) : list Q :=
  match x with
  | [] => []
  | xn :: x' => let yn := xn + gamma * yprev in yn :: iir1 gamma yn x'
  end.

(** Element-wise equality of float sequences. *)
Definition Qlist_eq : list Q -> list Q -> Prop := Forall2 Qeq.

(** ** PySC2 tables and observations

    The agent reads tables of the library PySC2 ([actions.FUNCTIONS],
    [actions.TYPES], the observation spec) and of the module
    [SC2Definitions] ([ACTIONS], [UNIT_TYPES]); they are parameters of the
    model, gathered in the class [SC2]. *)

(** An [actions.ArgumentType]: the code reads [.name] and [.sizes]. *)
Record ArgumentType : Type := {
  arg_name : string;
  arg_sizes : list nat
}.

(** An entry of [actions.FUNCTIONS]: the code reads [.id] and [.args]. *)
Record Function : Type := {
  fn_id : Z;
  fn_args : list ArgumentType
}.

Class SC2 : Type := {
  (** [actions.FUNCTIONS], indexed by function id *)
  FUNCTIONS : list Function;
  (** [actions.TYPES] *)
  TYPES : list ArgumentType;
  (** [SC2Definitions.ACTIONS[key]], once the actions are classified *)
  ACTIONS : string -> list nat;
  (** [SC2Definitions.UNIT_TYPES] *)
  UNIT_TYPES : nat;
  (** [features.Features(...).observation_spec()]: label and shape *)
  observation_spec : list (string * list nat)
}.

(** An integer NumPy array: its shape and its elements in row-major order
    ([reshape(-1)]). *)
Record ndarray : Type := {
  shape : list nat;
  data : list Z
}.

Inductive StepType : Type := FIRST | MID | LAST.

Definition StepType_eqb (a b : StepType) : bool :=
  match a, b with
  | FIRST, FIRST | MID, MID | LAST, LAST => true
  | _, _ => false
  end.

(** An [environment.TimeStep]; [observation] is the dict of feature arrays,
    in iteration order. *)
Record TimeStep : Type := {
  step_type : StepType;
  reward : Q;
  observation : list (string * ndarray)
}.

(** [d[k]] on a dict. *)
Fixpoint lookup {A : Type} (d : list (string * A)) (k : string) : result A :=
  match d with
  | [] => raise KeyError
  | (k', a) :: d' => if String.eqb k k' then ret a else lookup d' k
  end.

(** [del d[k]] *)
Fixpoint del {A : Type} (d : list (string * A)) (k : string)
  : result (list (string * A)) :=
  match d with
  | [] => raise KeyError
  | (k', a) :: d' =>
      if String.eqb k k' then ret d'
      else (r <- del d' k ;; ret ((k', a) :: r))
  end.

(** [k in l] for a list of labels. *)
Definition str_in (k : string) (l : list string) : bool :=
  existsb (String.eqb k) l.

(** [x in arr] for an integer array. *)
Definition in_array (x : Z) (arr : ndarray) : bool :=
  existsb (Z.eqb x) (data arr).

(** [arr[c, i, j]] used as a number: an element of a 3-D array; fewer
    dimensions raise [IndexError], more give a sub-array, whose truth value
    or use as an index raises. *)
Definition get3 (arr : ndarray) (c i j : nat) : result Z :=
  match shape arr with
  | [d0; d1; d2] =>
      if (c <? d0)%nat && (i <? d1)%nat && (j <? d2)%nat
      then index (data arr) ((c * d1 + i) * d2 + j)
      else raise IndexError
  | _ :: _ :: _ :: _ :: _ => raise ValueError
  | _ => raise IndexError
  end.

(** [for a in l: s = body(a, s)] *)
Fixpoint for_each {A S : Type} (l : list A) (body : A -> S -> result S) (s : S)
  : result S :=
  match l with
  | [] => ret s
  | a :: l' => s' <- body a s ;; for_each l' body s'
  end.

(** [range(n)] and [range(a, b)] *)
Definition range (n : nat) : list nat := seq 0 n.
Definition range_from (a b : nat) : list nat := seq a (b - a).

(** [np.stack(arr, axis=2)] of a feature-layer array of shape [(C, H, W)]:
    shape [(H, W, C)], element [[h, w, c]] being [arr[c, h, w]]. *)
Definition np_stack_axis2 (arr : ndarray) : result ndarray :=
  match shape arr with
  | [S c; h; w] =>
      d <- for_each
             (list_prod (range h) (list_prod (range w) (range (S c))))
             (fun '(i, (j, k)) acc => x <- get3 arr k i j ;; ret (acc ++ [x]))
             [] ;;
      ret {| shape := [h; w; S c]; data := d |}
  | _ => raise ValueError
  end.

(** [np.expand_dims(arr, axis=0)] *)
Definition np_expand_dims0 (arr : ndarray) : ndarray :=
  {| shape := 1%nat :: shape arr; data := data arr |}.

(** Indices of the screen layers ([features.SCREEN_FEATURES.unit_type.index]
    and [.player_relative.index]; 6 and 5, as the layer list in
    [PySC2_A3Cagent.py] has them) and module constants. *)
Definition _UNIT_TYPE : nat := 6.
Definition _PLAYER_RELATIVE : nat := 5.
Definition _ENEMY : Z := 4.
Definition _SELECT_SIZE : nat := 7.

(** ** [AgentModel] *)

Record AgentModel : Type := {
  screen_size : nat;
  minimap_size : nat;
  max_episodes_kept : nat;
  save_increment : nat;
  race : string;
  variable_features : list (string * nat);
  general_actions : list nat;
  race_actions : list nat;
  action_count : nat;
  last_action_used : nat;
  max_units_seen : list Q;
  (** [used_actions['N']] and [used_actions[race]] *)
  used_actions_N : list Q;
  used_actions_race : list Q
}.

(** [self.max_units_seen = u], the other attributes kept. *)
Definition with_max_units_seen (m : AgentModel) (u : list Q) : AgentModel :=
  {| screen_size := screen_size m; minimap_size := minimap_size m;
     max_episodes_kept := max_episodes_kept m;
     save_increment := save_increment m; race := race m;
     variable_features := variable_features m;
     general_actions := general_actions m; race_actions := race_actions m;
     action_count := action_count m;
     last_action_used := last_action_used m;
     max_units_seen := u;
     used_actions_N := used_actions_N m;
     used_actions_race := used_actions_race m |}.

Section Agent.
Context {sc2 : SC2}.

(** [AgentModel.reset] *)
Definition reset (m : AgentModel) : AgentModel :=
  {| screen_size := screen_size m; minimap_size := minimap_size m;
     max_episodes_kept := max_episodes_kept m;
     save_increment := save_increment m; race := race m;
     variable_features := variable_features m;
     general_actions := general_actions m; race_actions := race_actions m;
     action_count := action_count m;
     last_action_used := 0;
     max_units_seen := np_zeros UNIT_TYPES;
     used_actions_N := np_zeros (length (general_actions m));
     used_actions_race := np_zeros (length (race_actions m)) |}.

(** [AgentModel.__init__] with explicit settings and a valid race, through
    [setup_actions] and [reset]. *)
Definition AgentModel_init (race_ : string)
    (screen_size_ minimap_size_ max_episodes_kept_ save_increment_ : nat)
  : AgentModel :=
  let general := ACTIONS "N" in
  let racial := ACTIONS race_ in
  reset
    {| screen_size := screen_size_; minimap_size := minimap_size_;
       max_episodes_kept := max_episodes_kept_;
       save_increment := save_increment_; race := race_;
       variable_features :=
         [("cargo", 500); ("multi_select", 500); ("build_queue", 10);
          ("single_select", 1)]%nat%string;
       general_actions := general; race_actions := racial;
       action_count := length general + length racial;
       last_action_used := 0;
       max_units_seen := [];
       used_actions_N := np_zeros (length general);
       used_actions_race := np_zeros (length racial) |}.

(** [AgentModel.get_action] *)
Definition get_action (m : AgentModel) (action_index : nat) : result Function :=
  if (action_index <? length (general_actions m))%nat
  then (f <- index (general_actions m) action_index ;; index FUNCTIONS f)
  else (f <- index (race_actions m)
                   (action_index - length (general_actions m)) ;;
        index FUNCTIONS f).

(** [AgentModel.act(action_selected, action_arguments)]; the arguments are
    not read. *)
Definition act (m : AgentModel) (action_selected : nat) : result AgentModel :=
  let bump (l : list Q) (i : nat) : result (list Q) :=
    x <- index l i ;; ret (set_nth l i (x + 1)) in
  if (action_selected <? length (general_actions m))%nat
  then (u <- bump (used_actions_N m) action_selected ;;
        ret {| screen_size := screen_size m; minimap_size := minimap_size m;
               max_episodes_kept := max_episodes_kept m;
               save_increment := save_increment m; race := race m;
               variable_features := variable_features m;
               general_actions := general_actions m;
               race_actions := race_actions m;
               action_count := action_count m;
               last_action_used := action_selected;
               max_units_seen := max_units_seen m;
               used_actions_N := u;
               used_actions_race := used_actions_race m |})
  else (u <- bump (used_actions_race m)
                  (action_selected - length (general_actions m))%nat ;;
        ret {| screen_size := screen_size m; minimap_size := minimap_size m;
               max_episodes_kept := max_episodes_kept m;
               save_increment := save_increment m; race := race m;
               variable_features := variable_features m;
               general_actions := general_actions m;
               race_actions := race_actions m;
               action_count := action_count m;
               last_action_used := action_selected;
               max_units_seen := max_units_seen m;
               used_actions_N := used_actions_N m;
               used_actions_race := u |}).

(** The body of the scan of [process_observation] at cell [(i, j)]. *)
Definition count_cell (screen : ndarray) (i j : nat) (enemy_unit_types : list Q)
  : result (list Q) :=
  pr <- get3 screen _PLAYER_RELATIVE i j ;;
  if (pr =? _ENEMY)%Z then
    ut <- get3 screen _UNIT_TYPE i j ;;
    if (ut <? Z.of_nat UNIT_TYPES)%Z then
      p <- py_position (length enemy_unit_types) ut ;;
      ret (set_nth enemy_unit_types p (nth p enemy_unit_types 0 + 1))
    else ret enemy_unit_types
  else ret enemy_unit_types.

(** [enemy_unit_types] after the two nested loops over
    [range(screen.shape[0])] and [range(screen.shape[1])]. *)
Definition count_enemy_units (m : AgentModel) (obs : TimeStep)
  : result (list Q) :=
  screen <- lookup (observation obs) "screen" ;;
  n0 <- index (shape screen) 0 ;;
  for_each (range n0)
    (fun i acc =>
       screen_i <- lookup (observation obs) "screen" ;;
       n1 <- index (shape screen_i) 1 ;;
       for_each (range n1) (fun j acc' => count_cell screen_i i j acc') acc)
    (np_zeros (length (max_units_seen m))).

(** [max_units_seen[i] = max(max_units_seen[i]*3/4, enemy_unit_types[i])],
    in exact arithmetic. *)
Definition decay_step (enemy_unit_types : list Q) (i : nat)
    (max_units : list Q) : result (list Q) :=
  old <- index max_units i ;;
  seen <- index enemy_unit_types i ;;
  ret (set_nth max_units i (pymax (old * 3 / 4) seen)).

(** [for i in range(1, UNIT_TYPES): ...] *)
Definition decay_units_seen (max_units enemy_unit_types : list Q)
  : result (list Q) :=
  for_each (range_from 1 UNIT_TYPES) (decay_step enemy_unit_types) max_units.

(** The same update on binary64 numbers, as NumPy computes it: the entries
    of [max_units_seen] and of [enemy_unit_types] are [float64], the product
    by 3 and the quotient by 4 are each rounded to nearest, and the builtin
    [max(a, b)] is [b] when [b > a], otherwise [a]. *)
Definition pymax_f64 (a b : float) : float :=
  if PrimFloat.ltb a b then b else a.

Definition decay_step_f64 (enemy_unit_types : list float) (i : nat)
    (max_units : list float) : result (list float) :=
  old <- index max_units i ;;
  seen <- index enemy_unit_types i ;;
  ret (set_nth max_units i
         (pymax_f64 (PrimFloat.div (PrimFloat.mul old 3%float) 4%float) seen)).

Definition decay_units_seen_f64 (max_units enemy_unit_types : list float)
  : result (list float) :=
  for_each (range_from 1 UNIT_TYPES) (decay_step_f64 enemy_unit_types)
    max_units.

(** [n] updates in a row in which no enemy is counted:
    [enemy_unit_types] is [np.zeros(max_units_seen.size)] each time. *)
Fixpoint unseen_steps_f64 (n : nat) (max_units : list float)
  : result (list float) :=
  match n with
  | O => ret max_units
  | S n' =>
      mus <- decay_units_seen_f64 max_units
               (repeat 0%float (length max_units)) ;;
      unseen_steps_f64 n' mus
  end.

(** The update of the units seen, first block of [process_observation]. *)
Definition update_units_seen (m : AgentModel) (obs : TimeStep)
  : result AgentModel :=
  enemy_unit_types <- count_enemy_units m obs ;;
  mus <- decay_units_seen (max_units_seen m) enemy_unit_types ;;
  ret (with_max_units_seen m mus).

(** The mask of usable actions, second block of [process_observation]. *)
Definition available_mask (m : AgentModel) (obs : TimeStep) : result (list Q) :=
  for_each (range (action_count m))
    (fun i available_actions =>
       f <- get_action m i ;;
       avail <- lookup (observation obs) "available_actions" ;;
       if in_array (fn_id f) avail
       then (_ <- index available_actions i ;;
             ret (set_nth available_actions i 1))
       else ret available_actions)
    (np_zeros (action_count m)).

Definition inject_data (arr : ndarray) : list Q := map inject_Z (data arr).

(** [np.concatenate((flat, np.zeros(n - len(flat))))]; [np.zeros] raises
    [ValueError] on a negative size. *)
Definition pad_to (n : nat) (flat : list Q) : result (list Q) :=
  if (length flat <=? n)%nat
  then ret (flat ++ np_zeros (n - length flat))
  else raise ValueError.

(** The loop over [observation.observation.items()] that appends the
    non-spatial features. *)
Definition append_features (features : list (string * ndarray))
    (nonspatial_stack : list Q) : result (list Q) :=
  let spatial_features := ["minimap"; "screen"]%string in
  let variable_features := ["cargo"; "multi_select"; "build_queue"]%string in
  let max_no := [("cargo", 500); ("multi_select", 500);
                 ("build_queue", 10)]%nat%string in
  for_each features
    (fun '(feature_label, feature) stack =>
       if negb (str_in feature_label
                  (spatial_features ++ variable_features
                   ++ ["available_actions"%string]))
       then ret (stack ++ inject_data feature)
       else if str_in feature_label variable_features
       then
         cap <- lookup max_no feature_label ;;
         padded_feature <- pad_to (cap * _SELECT_SIZE) (inject_data feature) ;;
         ret (stack ++ padded_feature)
       else ret stack)
    nonspatial_stack.

(** What [process_observation] returns: the reward, the three stacks and the
    end-of-episode flag.  [nonspatial_stack] has shape [(1, n)]; the model
    keeps its row. *)
Record Processed : Type := {
  p_reward : Q;
  p_nonspatial_stack : list Q;
  p_minimap_stack : ndarray;
  p_screen_stack : ndarray;
  p_episode_end : bool
}.

(** [AgentModel.process_observation]: the updated model and the result. *)
Definition process_observation (m : AgentModel) (obs : TimeStep)
  : result (AgentModel * Processed) :=
  m' <- update_units_seen m obs ;;
  available_actions <- available_mask m' obs ;;
  let features := observation obs in
  let nonspatial_stack :=
    max_units_seen m' ++ used_actions_N m' ++ used_actions_race m'
    ++ available_actions ++ [inject_Z (Z.of_nat (last_action_used m'))] in
  nonspatial_stack <- append_features features nonspatial_stack ;;
  minimap <- lookup features "minimap" ;;
  minimap_stack <- np_stack_axis2 minimap ;;
  screen <- lookup features "screen" ;;
  screen_stack <- np_stack_axis2 screen ;;
  ret (m', {| p_reward := reward obs;
              p_nonspatial_stack := nonspatial_stack;
              p_minimap_stack := np_expand_dims0 minimap_stack;
              p_screen_stack := np_expand_dims0 screen_stack;
              p_episode_end := StepType_eqb (step_type obs) LAST |}).

(** The body of the loop of [calculate_nonspatial_size]:
    [size += variable_features[label] * feature[1]] for a variable feature,
    [size += np.prod(feature)] for the others. *)
Definition size_step (m : AgentModel) (entry : string * list nat) (size : nat)
  : result nat :=
  if str_in (fst entry) (map fst (variable_features m))
  then (cap <- lookup (variable_features m) (fst entry) ;;
        f1 <- index (snd entry) 1 ;;
        ret (size + cap * f1)%nat)
  else ret (size + np_prod (snd entry))%nat.

(** [AgentModel.calculate_nonspatial_size] *)
Definition calculate_nonspatial_size (m : AgentModel) : result nat :=
  let size := (action_count m * 2)%nat in
  let size := (size + (length (max_units_seen m) + 1))%nat in
  nonspatial_features <- del observation_spec "minimap" ;;
  nonspatial_features <- del nonspatial_features "screen" ;;
  for_each nonspatial_features (size_step m) size.

End Agent.

(** ** Sampling: [np.random.choice] and [sample_dist]

    [np.random.choice(a, p=p)] checks [p] (same size as [a], no negative
    entry, sum within [sqrt(eps)] of 1), takes one uniform draw [u] in
    [[0, 1)], and returns [a[idx]] where [idx] is the position of [u] in the
    normalised cumulative sums ([searchsorted(..., side='right')]). *)

Definition choice_atol : Q := 1 # 67108864.

Fixpoint cumsum_from (acc : Q) (p : list Q) : list Q :=
  match p with
  | [] => []
  | x :: p' => (acc + x) :: cumsum_from (acc + x) p'
  end.

Definition np_cumsum (p : list Q) : list Q := cumsum_from 0 p.

Definition searchsorted_right (cdf : list Q) (u : Q) : nat :=
  length (filter (fun c => Qle_bool c u) cdf).

Definition np_random_choice (u : Q) (a p : list Q) : result Q :=
  if (length a =? 0)%nat then raise ValueError
  else if negb (length p =? length a)%nat then raise ValueError
  else if existsb (fun x => Qltb x 0) p then raise ValueError
  else if Qltb choice_atol (Qabs (np_sum p - 1)) then raise ValueError
  else
    let cdf := np_cumsum p in
    let cdf := map (fun c => c / last cdf 0) cdf in
    index a (searchsorted_right cdf u).

(** [np.argmax] of a boolean array: the first [True], 0 when there is none. *)
Fixpoint np_argmax_bool (l : list bool) : nat :=
  match l with
  | [] => 0
  | true :: _ => 0
  | false :: l' => if existsb (fun b => b) l' then S (np_argmax_bool l') else 0
  end.

(** Code that draws random numbers: the stream of uniform draws of the
    generator and the position in it. *)
Definition Rand (A : Type) : Type := (nat -> Q) -> nat -> result (A * nat).

Definition retR {A : Type} (a : A) : Rand A := fun _ pos => ret (a, pos).

Definition bindR {A B : Type} (m : Rand A) (k : A -> Rand B) : Rand B :=
  fun draws pos =>
    match m draws pos with
    | inl (a, pos') => k a draws pos'
    | inr e => inr e
    end.

Definition liftR {A : Type} (r : result A) : Rand A :=
  fun _ pos => a <- r ;; ret (a, pos).

Notation "x <~ m ;; k" := (bindR m (fun x => k))
  (at level 61, m at next level, right associativity).

Fixpoint mapR {A B : Type} (f : A -> Rand B) (l : list A) : Rand (list B) :=
  match l with
  | [] => retR []
  | a :: l' => b <~ f a ;; bs <~ mapR f l' ;; retR (b :: bs)
  end.

(** [sample_dist(dist)]; [dist] has shape [(1, n)], the model takes its row
    [dist[0]]:
    [sample = np.random.choice(dist[0], p=dist[0])] and
    [np.argmax(dist == sample)]. *)
Definition sample_dist (dist : list Q) : Rand nat :=
  fun draws pos =>
    sample <- np_random_choice (draws pos) dist dist ;;
    ret (np_argmax_bool (map (fun x => Qeq_bool x sample) dist), S pos).

(** ** The action codec of [Worker.work] *)

(** Distributions and samples of the arguments: a dict from the argument
    name to a dict from the dimension to the distribution (to the sample). *)
Definition ArgDist : Type := list (string * list (nat * list Q)).
Definition ArgSample : Type := list (string * list (nat * Z)).

Fixpoint lookup_dim {A : Type} (d : list (nat * A)) (k : nat) : result A :=
  match d with
  | [] => raise KeyError
  | (k', a) :: d' => if (k =? k')%nat then ret a else lookup_dim d' k
  end.

(** The operands of the membership test [arg_name not in chosen_action.args]:
    a name is a [str], the members of [.args] are [ArgumentType] tuples.
    [==] between a [str] and a tuple is [False]. *)
Inductive pyobj : Type :=
| PyStr (s : string)
| PyArgumentType (a : ArgumentType).

Fixpoint sizes_eqb (a b : list nat) : bool :=
  match a, b with
  | [], [] => true
  | x :: a', y :: b' => (x =? y)%nat && sizes_eqb a' b'
  | _, _ => false
  end.

Definition ArgumentType_eqb (a b : ArgumentType) : bool :=
  String.eqb (arg_name a) (arg_name b) && sizes_eqb (arg_sizes a) (arg_sizes b).

Definition py_eq (x y : pyobj) : bool :=
  match x, y with
  | PyStr s, PyStr t => String.eqb s t
  | PyArgumentType a, PyArgumentType b => ArgumentType_eqb a b
  | _, _ => false
  end.

(** [x in l] *)
Definition py_in (x : pyobj) (l : list pyobj) : bool := existsb (py_eq x) l.

(** The sentinel written over unused arguments. *)
Definition sentinel : Z := (-1)%Z.

Record Selection : Type := {
  sel_base_action : nat;
  sel_arguments : list (list Z);
  (** [arg_sample], as stored in the rollout for training *)
  sel_arg_sample : ArgSample;
  (** [actions.FunctionCall(chosen_action.id, arguments)] *)
  sel_call : Z * list (list Z)
}.

Section Codec.
Context {sc2 : SC2}.

(** The width of the policy head of an argument dimension
    ([AC_Network.__init__]): a size 0 stands for the screen or minimap
    resolution. *)
Definition processed_size (m : AgentModel) (arg : ArgumentType) (size : nat)
  : nat :=
  if (size =? 0)%nat then
    if String.eqb (arg_name arg) "screen" || String.eqb (arg_name arg) "screen2"
    then screen_size m
    else if String.eqb (arg_name arg) "minimap" then minimap_size m
    else 1%nat
  else size.

(** The heads [policy_arg[arg.name][dim]] of the network, one per dimension
    of every argument type of [actions.TYPES], with their widths. *)
Definition policy_arg_sizes (m : AgentModel) : list (string * list (nat * nat)) :=
  map (fun arg =>
         (arg_name arg,
          combine (range (length (arg_sizes arg)))
                  (map (processed_size m arg) (arg_sizes arg))))
      TYPES.

(** The names, dimensions and widths of the distributions in [arg_dist]. *)
Definition arg_dist_sizes (arg_dist : ArgDist) : list (string * list (nat * nat)) :=
  map (fun '(arg, dims) =>
         (arg, map (fun '(dim, dist) => (dim, length dist)) dims))
      arg_dist.

(** The body of the filter of unavailable actions:
    [if get_action(action_id).id not in available_actions:
       base_action_dist[0][action_id] = 0] *)
Definition mask_step (m : AgentModel) (obs : TimeStep) (action_id : nat)
    (dist : list Q) : result (list Q) :=
  f <- get_action m action_id ;;
  avail <- lookup (observation obs) "available_actions" ;;
  if negb (in_array (fn_id f) avail)
  then ret (set_nth dist action_id 0)
  else ret dist.

(** [for action_id, action_prob in enumerate(base_action_dist[0])] *)
Definition mask_unavailable (m : AgentModel) (obs : TimeStep)
    (base_action_dist : list Q) : result (list Q) :=
  for_each (range (length base_action_dist)) (mask_step m obs)
    base_action_dist.

(** [if np.sum(d) != 1 and np.sum(d) != 0: d /= np.sum(d)] *)
Definition renormalize (dist : list Q) : list Q :=
  if negb (Qeq_bool (np_sum dist) 1) && negb (Qeq_bool (np_sum dist) 0)
  then let current_sum := np_sum dist in map (fun p => p / current_sum) dist
  else dist.

(** The distribution handed to [sample_dist] for the base action. *)
Definition masked_distribution (m : AgentModel) (obs : TimeStep)
    (base_action_dist : list Q) : result (list Q) :=
  masked <- mask_unavailable m obs base_action_dist ;;
  ret (renormalize masked).

(** [arg_sample[arg][dim] = sample_dist(arg_dist[arg][dim])], in the
    iteration order of the dicts. *)
Definition sample_arguments (arg_dist : ArgDist) : Rand ArgSample :=
  mapR (fun '(arg, dims) =>
          samples <~ mapR (fun '(dim, dist) =>
                             s <~ sample_dist dist ;;
                             retR (dim, Z.of_nat s)) dims ;;
          retR (arg, samples))
       arg_dist.

(** [arguments]: for each argument of the chosen action, its samples in the
    order of its dimensions. *)
Definition collect_arguments (chosen_action : Function) (arg_sample : ArgSample)
  : result (list (list Z)) :=
  for_each (fn_args chosen_action)
    (fun arg arguments =>
       arg_value <-
         for_each (range (length (arg_sizes arg)))
           (fun dim arg_value =>
              dims <- lookup arg_sample (arg_name arg) ;;
              x <- lookup_dim dims dim ;;
              ret (arg_value ++ [x]))
           [] ;;
       ret (arguments ++ [arg_value]))
    [].

(** [for arg_name, arg in arg_sample.items():
       if arg_name not in chosen_action.args:
         for dim in arg: arg_sample[arg_name][dim] = -1] *)
Definition mark_unused (chosen_action : Function) (arg_sample : ArgSample)
  : ArgSample :=
  map (fun '(arg_name, arg) =>
         if negb (py_in (PyStr arg_name)
                    (map PyArgumentType (fn_args chosen_action)))
         then (arg_name, map (fun '(dim, _) => (dim, sentinel)) arg)
         else (arg_name, arg))
      arg_sample.

(** One action selection of the episode loop, from the distributions the
    network returned to the call sent to the environment. *)
Definition select_action (m : AgentModel) (obs : TimeStep)
    (base_action_dist : list Q) (arg_dist : ArgDist) : Rand Selection :=
  dist <~ liftR (masked_distribution m obs base_action_dist) ;;
  base_action <~ sample_dist dist ;;
  arg_sample <~ sample_arguments arg_dist ;;
  chosen_action <~ liftR (get_action m base_action) ;;
  arguments <~ liftR (collect_arguments chosen_action arg_sample) ;;
  let arg_sample := mark_unused chosen_action arg_sample in
  retR {| sel_base_action := base_action;
          sel_arguments := arguments;
          sel_arg_sample := arg_sample;
          sel_call := (fn_id chosen_action, arguments) |}.

End Codec.

(** ** Rollouts, advantage estimation and the training trigger *)

(** An entry of [episode_buffer]:
    [[s_screen, s_minimap, s_nonspatial, base_action, arg_sample, r,
      s1_screen, s1_minimap, s1_nonspatial, episode_end, v[0,0]]]. *)
Record RolloutStep : Type := {
  rs_screen : ndarray;
  rs_minimap : ndarray;
  rs_nonspatial : list Q;
  rs_base_action : nat;
  rs_arg_sample : ArgSample;
  rs_r : Q;
  rs_screen1 : ndarray;
  rs_minimap1 : ndarray;
  rs_nonspatial1 : list Q;
  rs_episode_end : bool;
  rs_v : Q
}.

(** Element-wise [a + b], [a - b] and [c * a] on arrays. *)
Definition np_add (a b : list Q) : list Q :=
  map (fun '(x, y) => x + y) (combine a b).
Definition np_sub (a b : list Q) : list Q :=
  map (fun '(x, y) => x - y) (combine a b).
Definition np_scale (c : Q) (a : list Q) : list Q := map (Qmult c) a.

(** The advantage block of [Worker.train] (the [computeAdvantages] of the
    specification): [(discounted_rewards, advantages)] from the rewards and
    values of the rollout. *)
Definition computeAdvantages (rollout : list RolloutStep)
    (gamma bootstrap_value : Q) : list Q * list Q :=
  let rewards := map rs_r rollout in
  let values := map rs_v rollout in
  let rewards_plus := rewards ++ [bootstrap_value] in
  let discounted_rewards := removelast (discount rewards_plus gamma) in
  let value_plus := values ++ [bootstrap_value] in
  let advantages :=
    np_sub (np_add rewards (np_scale gamma (tl value_plus)))
           (removelast value_plus) in
  let advantages := discount advantages gamma in
  (discounted_rewards, advantages).

(** The counters of an episode of [Worker.work]. *)
Record EpisodeState : Type := {
  episode_buffer : list RolloutStep;
  episode_values : list Q;
  episode_reward : Q;
  episode_step_count : Z;
  total_steps : Z
}.

(** What the loop asks of the network: a call of [self.train] and a run of
    [update_local_ops]. *)
Inductive Event : Type :=
| TrainCall (rollout : list RolloutStep) (gamma bootstrap_value : Q)
| UpdateLocalOps.

(** The condition of the update in the middle of an episode. *)
Definition mid_episode_train_due (m : AgentModel) (buffer : list RolloutStep)
    (episode_end : bool) (step_count max_episode_length : Z) : bool :=
  (length buffer =? max_episodes_kept m)%nat
  && negb episode_end
  && negb (step_count =? max_episode_length - 1)%Z.

(** The end of the body of the episode loop, from the append to the buffer
    on; [v1] is the value the network gives the new state. *)
Definition record_step (m : AgentModel) (max_episode_length : Z)
    (gamma v1 : Q) (st : EpisodeState) (step : RolloutStep)
  : EpisodeState * list Event :=
  let buffer := episode_buffer st ++ [step] in
  let values := episode_values st ++ [rs_v step] in
  let reward_sum := episode_reward st + rs_r step in
  let total := (total_steps st + 1)%Z in
  let count := (episode_step_count st + 1)%Z in
  if mid_episode_train_due m buffer (rs_episode_end step) count
       max_episode_length
  then ({| episode_buffer := skipn (length buffer / 2) buffer;
           episode_values := values;
           episode_reward := reward_sum;
           episode_step_count := count;
           total_steps := total |},
        [TrainCall buffer gamma v1; UpdateLocalOps])
  else ({| episode_buffer := buffer;
           episode_values := values;
           episode_reward := reward_sum;
           episode_step_count := count;
           total_steps := total |},
        []).

(** ** A small instance

    A cut-down catalogue in the layout of PySC2's tables (the first four
    functions, their argument types, four unit types), used to run the
    definitions on concrete inputs. *)

Local Open Scope string_scope.

Definition T_screen : ArgumentType :=
  {| arg_name := "screen"; arg_sizes := [0; 0]%nat |}.
Definition T_minimap : ArgumentType :=
  {| arg_name := "minimap"; arg_sizes := [0; 0]%nat |}.
Definition T_screen2 : ArgumentType :=
  {| arg_name := "screen2"; arg_sizes := [0; 0]%nat |}.
Definition T_select_point_act : ArgumentType :=
  {| arg_name := "select_point_act"; arg_sizes := [4]%nat |}.
Definition T_select_add : ArgumentType :=
  {| arg_name := "select_add"; arg_sizes := [2]%nat |}.

#[local] Instance toy_sc2 : SC2 := {|
  FUNCTIONS :=
    [ {| fn_id := 0; fn_args := [] |};
      {| fn_id := 1; fn_args := [T_minimap] |};
      {| fn_id := 2; fn_args := [T_select_point_act; T_screen] |};
      {| fn_id := 3; fn_args := [T_select_add; T_screen; T_screen2] |} ];
  TYPES := [T_screen; T_minimap; T_screen2; T_select_point_act; T_select_add];
  ACTIONS := fun key => if String.eqb key "N" then [0; 1; 2]%nat else [3]%nat;
  UNIT_TYPES := 4;
  observation_spec :=
    [ ("screen", [7; 8; 8]); ("minimap", [7; 8; 8]); ("player", [11]);
      ("game_loop", [1]); ("score_cumulative", [13]);
      ("available_actions", [0]); ("single_select", [0; 7]);
      ("multi_select", [0; 7]); ("cargo", [0; 7]);
      ("cargo_slots_available", [1]); ("build_queue", [0; 7]);
      ("control_groups", [10; 2]) ]%nat
|}.

Definition toy_model : AgentModel := AgentModel_init "T" 8 8 30 100.

(** A feature-layer array of shape [(7, 8, 8)] whose layers
    [_PLAYER_RELATIVE] and [_UNIT_TYPE] are given cell by cell. *)
Definition toy_layers (player_relative unit_type : nat -> nat -> Z) : ndarray :=
  {| shape := [7; 8; 8]%nat;
     data :=
       map (fun '(c, (i, j)) =>
              if (c =? _PLAYER_RELATIVE)%nat then player_relative i j
              else if (c =? _UNIT_TYPE)%nat then unit_type i j
              else 0%Z)
           (list_prod (range 7) (list_prod (range 8) (range 8))) |}.

Definition zeros_array (sh : list nat) : ndarray :=
  {| shape := sh; data := repeat 0%Z (np_prod sh) |}.

(** An observation: the screen, the ids of the available actions and the
    rows of [single_select]; nothing else is selected or queued. *)
Definition toy_obs (screen : ndarray) (available : list Z)
    (single_select_rows : nat) : TimeStep :=
  {| step_type := MID;
     reward := 0;
     observation :=
       [ ("screen", screen);
         ("minimap", zeros_array [7; 8; 8]%nat);
         ("player", zeros_array [11]%nat);
         ("game_loop", zeros_array [1]%nat);
         ("score_cumulative", zeros_array [13]%nat);
         ("available_actions",
          {| shape := [length available]; data := available |});
         ("single_select", zeros_array [single_select_rows; 7]%nat);
         ("multi_select", zeros_array [0; 7]%nat);
         ("cargo", zeros_array [0; 7]%nat);
         ("cargo_slots_available", zeros_array [1]%nat);
         ("build_queue", zeros_array [0; 7]%nat);
         ("control_groups", zeros_array [10; 2]%nat) ] |}.

(** A screen with no enemy, and one whose cell [(0, 0)] holds an enemy of
    unit type [ut]. *)
Definition empty_screen : ndarray := toy_layers (fun _ _ => 0%Z) (fun _ _ => 0%Z).
Definition enemy_screen (ut : Z) : ndarray :=
  toy_layers (fun i j => if ((i =? 0) && (j =? 0))%nat then _ENEMY else 0%Z)
             (fun i j => if ((i =? 0) && (j =? 0))%nat then ut else 0%Z).

(** A rollout step with reward [r] and value estimate [v]. *)
Definition toy_step (r v : Q) : RolloutStep :=
  {| rs_screen := zeros_array []; rs_minimap := zeros_array [];
     rs_nonspatial := []; rs_base_action := 0; rs_arg_sample := [];
     rs_r := r; rs_screen1 := zeros_array []; rs_minimap1 := zeros_array [];
     rs_nonspatial1 := []; rs_episode_end := false; rs_v := v |}.

(** Distributions of the arguments of the small catalogue, of the widths of
    the heads of the network for an 8 by 8 screen and minimap. *)
Definition uniform8 : list Q :=
  [1 # 8; 1 # 8; 1 # 8; 1 # 8; 1 # 8; 1 # 8; 1 # 8; 1 # 8].

Definition toy_arg_dist : ArgDist :=
  [ ("screen", [(0, uniform8); (1, uniform8)]);
    ("minimap", [(0, uniform8); (1, uniform8)]);
    ("screen2", [(0, uniform8); (1, uniform8)]);
    ("select_point_act", [(0, [1 # 8; 3 # 8; 1 # 4; 1 # 4])]);
    ("select_add", [(0, [1 # 4; 3 # 4])]) ]%nat.

Local Close Scope string_scope.

(** [1 + g + ... + g^(n-1)] *)
Fixpoint geometric_sum (g : Q) (n : nat) : Q :=
  match n with
  | O => 0
  | S n' => 1 + g * geometric_sum g n'
  end.

(** ** Episodes

    The models an episode goes through: [reset], then any number of
    [process_observation] and [act]. *)
Inductive Reachable {sc2 : SC2} (m0 : AgentModel) : AgentModel -> Prop :=
| Reachable_reset : Reachable m0 (reset m0)
| Reachable_observation (m m' : AgentModel) (obs : TimeStep) (p : Processed) :
    Reachable m0 m ->
    process_observation m obs = inl (m', p) ->
    Reachable m0 m'
| Reachable_act (m m' : AgentModel) (action_selected : nat) :
    Reachable m0 m ->
    act m action_selected = inl m' ->
    Reachable m0 m'.

(** The number of entries a feature adds to the non-spatial stack: nothing
    for the spatial features and the list of available actions, the padded
    capacity for [cargo], [multi_select] and [build_queue], its own size for
    any other feature. *)
Definition feature_width (feature_label : string) (feature : ndarray) : nat :=
  if negb (str_in feature_label
             ["minimap"; "screen"; "cargo"; "multi_select"; "build_queue";
              "available_actions"]%string)
  then length (data feature)
  else if String.eqb feature_label "build_queue" then 10 * _SELECT_SIZE
  else if str_in feature_label ["cargo"; "multi_select"]%string
  then 500 * _SELECT_SIZE
  else 0.

Definition features_width (features : list (string * ndarray)) : nat :=
  fold_right (fun '(feature_label, feature) n =>
                (feature_width feature_label feature + n)%nat) 0%nat features.




(** What every model of an episode satisfies: one entry per unit type, none
    negative, and 0 for unit type 0. *)
Definition units_seen_ok {sc2 : SC2} (m : AgentModel) : Prop :=
  length (max_units_seen m) = UNIT_TYPES /\
  (forall i, 0 <= nth i (max_units_seen m) 0) /\
  nth 0 (max_units_seen m) 0 = 0.

(** ** Further parts of the agent

    Powers and finite sums, for the closed form of [discount]. *)

Fixpoint Qpow (g : Q) (k : nat) : Q :=
  match k with
  | O => 1
  | S k' => g * Qpow g k'
  end.

(** [f 0 + f 1 + ... + f (n-1)] *)
Fixpoint Qsum_n (f : nat -> Q) (n : nat) : Q :=
  match n with
  | O => 0
  | S n' => Qsum_n f n' + f n'
  end.

(** The first value of [advantages] in [Worker.train]:
    [rewards + gamma * value_plus[1:] - value_plus[:-1]]. *)
Definition td_residuals (rollout : list RolloutStep)
    (gamma bootstrap_value : Q) : list Q :=
  let rewards := map rs_r rollout in
  let values := map rs_v rollout in
  let value_plus := values ++ [bootstrap_value] in
  np_sub (np_add rewards (np_scale gamma (tl value_plus)))
         (removelast value_plus).

(** ** Further parts of [AgentModel] *)

(** [d[k] = v] on a dict with integer keys: an existing key keeps its place. *)
Fixpoint dict_set {A : Type} (d : list (nat * A)) (k : nat) (v : A)
  : list (nat * A) :=
  match d with
  | [] => [(k, v)]
  | (k', a) :: d' =>
      if (k =? k')%nat then (k, v) :: d' else (k', a) :: dict_set d' k v
  end.

(** [for i in range(len(actions)): indices[actions[i]] = i], from index [i]
    on. *)
Fixpoint index_actions (indices : list (nat * nat)) (i : nat)
    (actions : list nat) : list (nat * nat) :=
  match actions with
  | [] => indices
  | a :: rest => index_actions (dict_set indices a i) (S i) rest
  end.

(** The dicts [action_indices['N']] and [action_indices[race]] that
    [setup_actions] builds. *)
Definition action_indices_N (m : AgentModel) : list (nat * nat) :=
  index_actions [] 0 (general_actions m).
Definition action_indices_race (m : AgentModel) : list (nat * nat) :=
  index_actions [] 0 (race_actions m).

Section AgentCopy.
Context {sc2 : SC2}.

(** [AgentModel(agent_model=m)]: the settings of [m], then [setup_actions]
    and [reset] as for a new model. *)
Definition AgentModel_copy (m : AgentModel) : AgentModel :=
  AgentModel_init (race m) (screen_size m) (minimap_size m)
    (max_episodes_kept m) (save_increment m).

(** The models of an episode, with the number of calls of [act] since
    [reset]. *)
Inductive Acted (m0 : AgentModel) : nat -> AgentModel -> Prop :=
| Acted_reset : Acted m0 0 (reset m0)
| Acted_observation (n : nat) (m m' : AgentModel) (obs : TimeStep)
    (p : Processed) :
    Acted m0 n m ->
    process_observation m obs = inl (m', p) ->
    Acted m0 n m'
| Acted_act (n : nat) (m m' : AgentModel) (action_selected : nat) :
    Acted m0 n m ->
    act m action_selected = inl m' ->
    Acted m0 (S n) m'.

End AgentCopy.

(** Two models with the same settings and the same catalogue of actions. *)
Definition same_settings (m m0 : AgentModel) : Prop :=
  screen_size m = screen_size m0 /\
  minimap_size m = minimap_size m0 /\
  max_episodes_kept m = max_episodes_kept m0 /\
  save_increment m = save_increment m0 /\
  race m = race m0 /\
  variable_features m = variable_features m0 /\
  general_actions m = general_actions m0 /\
  race_actions m = race_actions m0 /\
  action_count m = action_count m0.

(** ** Further definitions for the observation encoder *)

(** A padded feature with more entries than its capacity. *)
Definition over_capacity (f : string * ndarray) : bool :=
  str_in (fst f) ["cargo"; "multi_select"; "build_queue"]%string
  && (feature_width (fst f) (snd f) <? length (data (snd f)))%nat.

(** The entries a feature adds to the stack: its own for an ordinary
    feature, its own followed by zeros up to the capacity for a padded one,
    none for the spatial features and the list of available actions. *)
Definition feature_entries (f : string * ndarray) : list Q :=
  if negb (str_in (fst f)
             ["minimap"; "screen"; "cargo"; "multi_select"; "build_queue";
              "available_actions"]%string)
  then inject_data (snd f)
  else if str_in (fst f) ["cargo"; "multi_select"; "build_queue"]%string
  then inject_data (snd f)
       ++ np_zeros (feature_width (fst f) (snd f) - length (data (snd f)))
  else [].

(** A screen of the small instance whose cell [(i0, j0)] holds an enemy of
    unit type [ut]. *)
Definition enemy_screen_at (i0 j0 : nat) (ut : Z) : ndarray :=
  toy_layers
    (fun i j => if ((i =? i0) && (j =? j0))%nat then _ENEMY else 0%Z)
    (fun i j => if ((i =? i0) && (j =? j0))%nat then ut else 0%Z).



(** ** The episode loop of [Worker.work] *)

(** The counters at the start of an episode; [total_steps] runs over the
    episodes. *)
Definition start_of_episode (total : Z) : EpisodeState :=
  {| episode_buffer := [];
     episode_values := [];
     episode_reward := 0;
     episode_step_count := 0;
     total_steps := total |}.

(** [while not episode_end: ... if episode_end: break] over the steps the
    environment gives, each with the value [v1] the network gives the state
    it leads to: the counters, the calls made and whether the loop was
    left. *)
Fixpoint episode_loop (m : AgentModel) (max_episode_length : Z) (gamma : Q)
    (st : EpisodeState) (steps : list (RolloutStep * Q))
  : EpisodeState * list Event * bool :=
  match steps with
  | [] => (st, [], false)
  | (step, v1) :: steps' =>
      let '(st', events) :=
        record_step m max_episode_length gamma v1 st step in
      if rs_episode_end step then (st', events, true)
      else
        let '(st'', events', ended) :=
          episode_loop m max_episode_length gamma st' steps' in
        (st'', events ++ events', ended)
  end.

(** [if len(episode_buffer) != 0:
       self.train(episode_buffer, sess, gamma, 0.0)] *)
Definition end_of_episode_train (gamma : Q) (st : EpisodeState) : list Event :=
  if negb (length (episode_buffer st) =? 0)%nat
  then [TrainCall (episode_buffer st) gamma 0]
  else [].

(** One episode of [Worker.work]: the copy of the global parameters, the
    loop (skipped when the first observation already ends the episode) and
    the update at the end of the episode. *)
Definition work_episode (m : AgentModel) (max_episode_length : Z) (gamma : Q)
    (total : Z) (first_episode_end : bool) (steps : list (RolloutStep * Q))
  : EpisodeState * list Event * bool :=
  if first_episode_end
  then (start_of_episode total,
        UpdateLocalOps :: end_of_episode_train gamma (start_of_episode total),
        true)
  else
    let '(st, events, ended) :=
      episode_loop m max_episode_length gamma (start_of_episode total) steps in
    (st,
     UpdateLocalOps :: events
       ++ (if ended then end_of_episode_train gamma st else []),
     ended).

(** The steps the loop records: those up to the first one that ends the
    episode. *)
Fixpoint recorded (steps : list (RolloutStep * Q)) : list RolloutStep :=
  match steps with
  | [] => []
  | (step, _) :: steps' =>
      if rs_episode_end step then [step] else step :: recorded steps'
  end.

(** The globals [_max_score] and [_running_avg_score] and the counter
    [episode_count]. *)
Record Scores : Type := {
  _max_score : Q;
  _running_avg_score : Q;
  episode_count : Z
}.

(** The values [main] and the start of [work] give them when no model is
    loaded. *)
Definition initial_scores : Scores :=
  {| _max_score := 0; _running_avg_score := 0; episode_count := 0 |}.

(** The update of the scores after an episode:
    [episode_count += 1], [if _max_score < episode_reward: ...],
    [_running_avg_score += (episode_reward - _running_avg_score)
       / (episode_count if episode_count > 0 else 1)]. *)
Definition update_scores (s : Scores) (episode_reward : Q) : Scores :=
  let count := (episode_count s + 1)%Z in
  {| _max_score :=
       if Qltb (_max_score s) episode_reward then episode_reward
       else _max_score s;
     _running_avg_score :=
       _running_avg_score s
       + (episode_reward - _running_avg_score s)
         / inject_Z (if (count >? 0)%Z then count else 1%Z);
     episode_count := count |}.

(** A rollout step that ends the episode, and a model of the small
    catalogue whose buffer holds two steps. *)
Definition toy_last_step (r v : Q) : RolloutStep :=
  {| rs_screen := zeros_array []; rs_minimap := zeros_array [];
     rs_nonspatial := []; rs_base_action := 0; rs_arg_sample := [];
     rs_r := r; rs_screen1 := zeros_array []; rs_minimap1 := zeros_array [];
     rs_nonspatial1 := []; rs_episode_end := true; rs_v := v |}.

Definition toy_model_2 : AgentModel := AgentModel_init "T" 8 8 2 100.

(** * Theorems *)

(** Splits a hypothesis that a sequence of binds returned a value. *)
Ltac inv_bind H :=
  unfold bind in H;
  repeat match type of H with
  | match ?x with inl _ => _ | inr _ => _ end = inl _ =>
      let E := fresh "E" in destruct x eqn:E; [|discriminate H]
  end.


Lemma Qlist_eq_rev l l' : Qlist_eq l l' -> Qlist_eq (rev l) (rev l').
Proof.
  induction 1; simpl.
  - constructor.
  - apply Forall2_app; [assumption | repeat constructor; assumption].
Qed.

Lemma Qlist_eq_nth l l' i : Qlist_eq l l' -> nth i l 0 == nth i l' 0.
Proof.
  intros H; revert i; induction H; intros [|i]; simpl; auto with qarith.
Qed.

Lemma iir1_proper gamma y y' x :
  y == y' -> Qlist_eq (iir1 gamma y x) (iir1 gamma y' x).
Proof.
  revert y y'; induction x as [|xn x IH]; intros y y' E; simpl.
  - constructor.
  - constructor; [rewrite E; reflexivity | apply IH; rewrite E; reflexivity].
Qed.

Lemma Qlist_eq_trans l1 l2 l3 :
  Qlist_eq l1 l2 -> Qlist_eq l2 l3 -> Qlist_eq l1 l3.
Proof.
  intros H; revert l3; induction H as [|a b l l' E H IH]; intros l3 H3;
    inversion H3; subst; constructor.
  - rewrite E; assumption.
  - apply IH; assumption.
Qed.

Lemma lfilter_from_iir1 gamma x : forall xh yh y0,
  hd 0 yh == y0 ->
  Qlist_eq (lfilter_from [1] [1; - gamma] xh yh x) (iir1 gamma y0 x).
Proof.
  induction x as [|xn x IH]; intros xh yh y0 E; simpl.
  - constructor.
  - assert (Ey : (1 * xn + 0 - dot [- gamma] yh) / 1 == xn + gamma * y0).
    { destruct yh as [|yl yh]; simpl in *; rewrite <- E; field. }
    constructor; [exact Ey|].
    eapply Qlist_eq_trans; [apply IH; simpl; reflexivity|].
    apply iir1_proper; exact Ey.
Qed.

Lemma last_cons (l : list Q) : forall y d, last (y :: l) d = last l y.
Proof.
  induction l as [|a l IH]; intros y d; [reflexivity|].
  change (last (y :: a :: l) d) with (last (a :: l) d).
  rewrite (IH a d), (IH a y). reflexivity.
Qed.

Lemma iir1_snoc gamma x : forall y0 xn,
  iir1 gamma y0 (x ++ [xn]) =
  iir1 gamma y0 x ++ [xn + gamma * last (iir1 gamma y0 x) y0].
Proof.
  induction x as [|a x IH]; intros y0 xn; cbn [iir1 app].
  - reflexivity.
  - rewrite IH, last_cons. reflexivity.
Qed.

Lemma hd_rev_last (l : list Q) d : hd d (rev l) = last l d.
Proof.
  induction l as [|a l IH] using rev_ind; simpl; [reflexivity|].
  rewrite rev_app_distr, last_last. reflexivity.
Qed.

Lemma rev_iir1_spec gamma x :
  rev (iir1 gamma 0 (rev x)) = discount_spec x gamma.
Proof.
  induction x as [|xi x IH]; simpl; [reflexivity|].
  rewrite iir1_snoc, rev_app_distr; simpl.
  rewrite <- IH, hd_rev_last. reflexivity.
Qed.

Lemma discount_refines x gamma :
  Qlist_eq (discount x gamma) (discount_spec x gamma).
Proof.
  unfold discount, lfilter. rewrite <- rev_iir1_spec.
  apply Qlist_eq_rev, lfilter_from_iir1. reflexivity.
Qed.

Lemma discount_spec_nth gamma x : forall i,
  nth i (discount_spec x gamma) 0 ==
  nth i x 0 + gamma * nth (S i) (discount_spec x gamma) 0.
Proof.
  induction x as [|xi x IH]; intros i.
  - destruct i; simpl; ring.
  - destruct i as [|i].
    + simpl. destruct (discount_spec x gamma); simpl; reflexivity.
    + change (nth (S i) (discount_spec (xi :: x) gamma) 0)
        with (nth i (discount_spec x gamma) 0).
      change (nth (S (S i)) (discount_spec (xi :: x) gamma) 0)
        with (nth (S i) (discount_spec x gamma) 0).
      simpl (nth (S i) (xi :: x) 0). apply IH.
Qed.

(** C1: [discount(x, gamma)] has the length of [x] and is the reverse-time
    discounted cumulative sum: [output[i] = x[i] + gamma*output[i+1]], the
    value past the end being 0; and for [gamma = 0.5] and [x = [1,1,1]] it is
    exactly [[1.75, 1.5, 1.0]]. *)
Theorem discount_recurrence :
  (forall x gamma, length (discount x gamma) = length x) /\
  (forall x gamma i,
      nth i (discount x gamma) 0 ==
      nth i x 0 + gamma * nth (S i) (discount x gamma) 0) /\
  map Qred (discount [1; 1; 1] (1 # 2)) = [7 # 4; 3 # 2; 1].
Proof.
  split; [|split].
  - intros x gamma. unfold discount, lfilter.
    rewrite length_rev.
    assert (L : forall b a xs xh yh,
               length (lfilter_from b a xh yh xs) = length xs).
    { induction xs; intros; simpl; [reflexivity | f_equal; apply IHxs]. }
    rewrite L, length_rev. reflexivity.
  - intros x gamma i.
    rewrite !(Qlist_eq_nth _ _ _ (discount_refines x gamma)).
    apply discount_spec_nth.
  - vm_compute. reflexivity.
Qed.

(** ** Advantage estimation *)

Lemma discount_spec_proper gamma x x' :
  Qlist_eq x x' -> Qlist_eq (discount_spec x gamma) (discount_spec x' gamma).
Proof.
  induction 1 as [|a b l l' E H IH]; simpl; constructor; [|exact IH].
  assert (Eh : hd 0 (discount_spec l gamma) == hd 0 (discount_spec l' gamma)).
  { inversion IH; simpl; auto with qarith. }
  rewrite E, Eh. reflexivity.
Qed.

Lemma discount_spec_repeat gamma delta n : forall i, (i < n)%nat ->
  nth i (discount_spec (repeat delta n) gamma) 0 ==
  delta * geometric_sum gamma (n - i).
Proof.
  induction n as [|n IH]; intros i Hi; [lia|].
  destruct i as [|i].
  - cbn [repeat discount_spec nth]. rewrite Nat.sub_0_r.
    cbn [geometric_sum].
    destruct n as [|n].
    + simpl. ring.
    + assert (E : hd 0 (discount_spec (repeat delta (S n)) gamma) ==
                  delta * geometric_sum gamma (S n)).
      { rewrite <- (Nat.sub_0_r (S n)) at 2. rewrite <- IH by lia.
        simpl. reflexivity. }
      rewrite E. ring.
  - cbn [repeat discount_spec nth Nat.sub]. apply IH. lia.
Qed.

Lemma td_residuals_constant g r v : forall rs vp,
  Forall (fun x => x == r) rs -> Forall (fun x => x == v) vp ->
  length vp = S (length rs) ->
  Qlist_eq (np_sub (np_add rs (np_scale g (tl vp))) (removelast vp))
           (repeat (r + (g - 1) * v) (length rs)).
Proof.
  induction rs as [|r0 rs IH]; intros vp Hr Hv Hl.
  - constructor.
  - destruct vp as [|v0 [|v1 vp]]; simpl in Hl; try lia.
    inversion Hr as [|? ? Er Hr']; subst.
    inversion Hv as [|? ? Ev0 Hv']; subst.
    inversion Hv' as [|? ? Ev1 _]; subst.
    specialize (IH (v1 :: vp) Hr' Hv' ltac:(simpl; lia)).
    change (Qlist_eq
              ((r0 + g * v1 - v0)
               :: np_sub (np_add rs (np_scale g (tl (v1 :: vp))))
                         (removelast (v1 :: vp)))
              ((r + (g - 1) * v) :: repeat (r + (g - 1) * v) (length rs))).
    constructor; [|exact IH].
    rewrite Er, Ev0, Ev1. ring.
Qed.

(** C2, as the code has it: with every reward [r], every value estimate [v],
    bootstrap value [v] and discount factor [g], the advantage at step [i] of
    a rollout of [n] steps is [(r + (g-1)*v) * (1 + g + ... + g^(n-1-i))];
    the last one is [r + (g-1)*v]. *)
Theorem advantages_constant_rollout :
  forall (rollout : list RolloutStep) (r v g : Q) (i : nat),
    Forall (fun s => rs_r s == r /\ rs_v s == v) rollout ->
    (i < length rollout)%nat ->
    nth i (snd (computeAdvantages rollout g v)) 0 ==
      (r + (g - 1) * v) * geometric_sum g (length rollout - i)
    /\ nth (length rollout - 1) (snd (computeAdvantages rollout g v)) 0 ==
         r + (g - 1) * v.
Proof.
  intros rollout r v g i Hall Hi.
  assert (E : Qlist_eq (snd (computeAdvantages rollout g v))
                (discount_spec (repeat (r + (g - 1) * v) (length rollout)) g)).
  { unfold computeAdvantages; cbn [snd].
    eapply Qlist_eq_trans; [apply discount_refines|].
    apply discount_spec_proper.
    rewrite <- (length_map rs_r rollout).
    apply td_residuals_constant.
    - apply Forall_map. eapply Forall_impl; [|exact Hall].
      intros a [H _]; exact H.
    - apply Forall_app; split; [|repeat constructor; reflexivity].
      apply Forall_map. eapply Forall_impl; [|exact Hall].
      intros a [_ H]; exact H.
    - rewrite length_app, !length_map. simpl. lia. }
  split.
  - rewrite (Qlist_eq_nth _ _ i E). apply discount_spec_repeat. exact Hi.
  - rewrite (Qlist_eq_nth _ _ _ E), discount_spec_repeat by lia.
    replace (length rollout - (length rollout - 1))%nat with 1%nat by lia.
    simpl. ring.
Qed.

Lemma advantages_constant_rollout_witness :
  nth 0 (snd (computeAdvantages [toy_step 1 0; toy_step 1 0] (1 # 2) 0)) 0 ==
    (1 + ((1 # 2) - 1) * 0) * geometric_sum (1 # 2) (2 - 0)
  /\ nth 1 (snd (computeAdvantages [toy_step 1 0; toy_step 1 0] (1 # 2) 0)) 0 ==
       1 + ((1 # 2) - 1) * 0.
Proof.
  apply (advantages_constant_rollout
           [toy_step 1 0; toy_step 1 0] 1 0 (1 # 2) 0).
  - repeat constructor; reflexivity.
  - simpl. lia.
Defined.

(** C2, as stated, fails: two steps of reward 1 and value 0 with discount
    1/2 give the advantages [[3/2, 1]], and [r + (g-1)*v] is 1. *)
Lemma advantages_not_all_equal :
  ~ (forall x,
        In x (snd (computeAdvantages [toy_step 1 0; toy_step 1 0] (1 # 2) 0)) ->
        x == 1 + ((1 # 2) - 1) * 0).
Proof.
  intros H.
  specialize (H (nth 0 (snd (computeAdvantages
                               [toy_step 1 0; toy_step 1 0] (1 # 2) 0)) 0)).
  vm_compute in H. specialize (H (or_introl eq_refl)). discriminate H.
Qed.

(** ** The training trigger *)

(** C5: the update in the middle of an episode runs exactly when the buffer
    holds [max_episodes_kept] steps, the episode has not ended and the step
    count is not [max_episode_length - 1]; it trains on the whole buffer and
    then keeps its last [C - C//2] steps, in their order (15 of 30). *)
Theorem mid_episode_train_truncates :
  forall (m : AgentModel) (max_episode_length : Z) (gamma v1 : Q)
         (st : EpisodeState) (step : RolloutStep),
    let buffer := episode_buffer st ++ [step] in
    let C := max_episodes_kept m in
    let st' := fst (record_step m max_episode_length gamma v1 st step) in
    let events := snd (record_step m max_episode_length gamma v1 st step) in
    (events <> [] <->
       length buffer = C /\ rs_episode_end step = false /\
       (episode_step_count st + 1)%Z <> (max_episode_length - 1)%Z) /\
    (events <> [] ->
       events = [TrainCall buffer gamma v1; UpdateLocalOps] /\
       episode_buffer st' = skipn (C / 2) buffer /\
       length (episode_buffer st') = (C - C / 2)%nat /\
       buffer = firstn (C / 2) buffer ++ episode_buffer st' /\
       episode_buffer st' <> [] /\
       (C = 30%nat -> length (episode_buffer st') = 15%nat)) /\
    (events = [] -> episode_buffer st' = buffer).
Proof.
  intros m max_episode_length gamma v1 st step buffer C st' events.
  subst st' events. unfold record_step. fold buffer.
  destruct (mid_episode_train_due m buffer (rs_episode_end step)
              (episode_step_count st + 1) max_episode_length) eqn:D;
    cbn [fst snd episode_buffer]; unfold mid_episode_train_due in D; fold C in D.
  - apply andb_prop in D; destruct D as [D D3].
    apply andb_prop in D; destruct D as [D1 D2].
    apply Nat.eqb_eq in D1. apply negb_true_iff in D2, D3.
    apply Z.eqb_neq in D3.
    assert (Hpos : (1 <= C)%nat).
    { rewrite <- D1. subst buffer. rewrite length_app. simpl. lia. }
    assert (Hhalf : (C / 2 < C)%nat) by (apply Nat.div_lt; lia).
    split; [|split].
    + split; [intros _; auto | intros _; discriminate].
    + intros _. rewrite D1.
      assert (L : length (skipn (C / 2) buffer) = (C - C / 2)%nat)
        by (rewrite length_skipn; lia).
      repeat split.
      * exact L.
      * symmetry. apply firstn_skipn.
      * intros E. rewrite E in L. cbn [length] in L. lia.
      * intros E. rewrite L, E. reflexivity.
    + discriminate.
  - split; [|split].
    + split; [intros H; exfalso; apply H; reflexivity|].
      intros (H1 & H2 & H3). exfalso.
      apply Nat.eqb_eq in H1. apply Z.eqb_neq in H3.
      rewrite H1, H2, H3 in D. discriminate.
    + intros H; exfalso; apply H; reflexivity.
    + reflexivity.
Qed.

Lemma mid_episode_train_truncates_witness :
  let st := {| episode_buffer := repeat (toy_step 0 0) 29;
               episode_values := repeat 0 29; episode_reward := 0;
               episode_step_count := 29; total_steps := 29 |} in
  snd (record_step toy_model 300 (99 # 100) 0 st (toy_step 1 0)) <> [] /\
  length (episode_buffer
            (fst (record_step toy_model 300 (99 # 100) 0 st (toy_step 1 0))))
  = 15%nat.
Proof.
  intros st.
  destruct (mid_episode_train_truncates toy_model 300 (99 # 100) 0 st
              (toy_step 1 0)) as [[_ Hdue] [Htrain _]].
  assert (Hev : snd (record_step toy_model 300 (99 # 100) 0 st (toy_step 1 0))
                <> []).
  { apply Hdue. repeat split; [vm_compute; lia]. }
  split; [exact Hev|].
  destruct (Htrain Hev) as (_ & _ & _ & _ & _ & H30).
  apply H30. reflexivity.
Defined.

(** ** Lists written by index *)

Lemma length_set_nth {A : Type} (l : list A) : forall i a,
  length (set_nth l i a) = length l.
Proof.
  induction l as [|x l IH]; intros [|i] a; simpl; auto.
Qed.

Lemma nth_set_nth_eq {A : Type} (l : list A) : forall i a d,
  (i < length l)%nat -> nth i (set_nth l i a) d = a.
Proof.
  induction l as [|x l IH]; intros [|i] a d H; simpl in *; try lia; auto.
  apply IH. lia.
Qed.

Lemma nth_set_nth_neq {A : Type} (l : list A) : forall i j a d,
  i <> j -> nth j (set_nth l i a) d = nth j l d.
Proof.
  induction l as [|x l IH]; intros [|i] [|j] a d H; simpl; auto; try lia.
Qed.

Lemma nth_error_set_nth_neq {A : Type} (l : list A) : forall i j a,
  i <> j -> nth_error (set_nth l i a) j = nth_error l j.
Proof.
  induction l as [|x l IH]; intros [|i] [|j] a H; simpl; auto; try lia.
Qed.

Lemma index_inl {A : Type} (l : list A) i a d :
  index l i = inl a -> (i < length l)%nat /\ nth i l d = a.
Proof.
  unfold index. destruct (nth_error l i) eqn:E; [|discriminate].
  intros H; inversion H; subst. split.
  - apply nth_error_Some. congruence.
  - apply nth_error_nth. exact E.
Qed.

(** An invariant of the state of a loop holds after it. *)
Lemma for_each_invariant {A S : Type} (P : S -> Prop)
    (body : A -> S -> result S) (l : list A) : forall s s',
  (forall a x x', In a l -> body a x = inl x' -> P x -> P x') ->
  P s -> for_each l body s = inl s' -> P s'.
Proof.
  induction l as [|a l IH]; intros s s' Hb Hs H; simpl in H.
  - inversion H; subst; exact Hs.
  - unfold bind in H. destruct (body a s) as [s1|e] eqn:E; [|discriminate].
    apply (IH s1 s'); auto.
    + intros b x x' Hin. apply Hb. right; exact Hin.
    + apply (Hb a s s1); auto. left; reflexivity.
Qed.

(** ** Masking and renormalization *)

Section Masking.
Context {sc2 : SC2}.
Variables (m : AgentModel) (obs : TimeStep).

Lemma mask_body_length a d d' :
  mask_step m obs a d = inl d' -> length d' = length d.
Proof.
  unfold mask_step. intros H. inv_bind H.
  destruct (negb _); inversion H; subst; auto using length_set_nth.
Qed.

Lemma mask_body_other a d d' i :
  mask_step m obs a d = inl d' -> i <> a -> nth i d' 0 = nth i d 0.
Proof.
  unfold mask_step. intros H Hi. inv_bind H.
  destruct (negb _); inversion H; subst; auto.
  apply nth_set_nth_neq. auto.
Qed.

Lemma mask_loop_spec n : forall a d out,
  for_each (seq a n) (mask_step m obs) d = inl out ->
  length out = length d /\
  (forall i, (i < a)%nat -> nth i out 0 = nth i d 0) /\
  (forall i f avail,
      (a <= i < a + n)%nat -> (i < length d)%nat ->
      get_action m i = inl f ->
      lookup (observation obs) "available_actions" = inl avail ->
      in_array (fn_id f) avail = false ->
      nth i out 0 = 0).
Proof.
  induction n as [|n IH]; intros a d out H; simpl in H.
  - inversion H; subst. repeat split; auto. intros; lia.
  - unfold bind in H. destruct (mask_step m obs a d) as [d1|e] eqn:E; [|discriminate].
    destruct (IH (S a) d1 out H) as (L & Hlow & Hmask).
    pose proof (mask_body_length _ _ _ E) as L1.
    repeat split.
    + congruence.
    + intros i Hi. rewrite Hlow by lia. eapply mask_body_other; eauto. lia.
    + intros i f avail Hr Hlen Hf Hav Hin.
      destruct (Nat.eq_dec i a) as [->|Hne].
      * rewrite Hlow by lia.
        unfold mask_step, bind in E. rewrite Hf, Hav, Hin in E.
        simpl in E. inversion E; subst.
        apply nth_set_nth_eq. exact Hlen.
      * eapply Hmask; eauto; lia.
Qed.

Lemma mask_loop_returns n : forall a d,
  (exists avail, lookup (observation obs) "available_actions" = inl avail) ->
  (forall i, (a <= i < a + n)%nat -> exists f, get_action m i = inl f) ->
  exists out, for_each (seq a n) (mask_step m obs) d = inl out.
Proof.
  induction n as [|n IH]; intros a d [avail Hav] Hcat; cbn [seq for_each].
  - eexists; reflexivity.
  - destruct (Hcat a ltac:(lia)) as [f Hf].
    assert (Hstep : exists d1, mask_step m obs a d = inl d1).
    { unfold mask_step, bind. rewrite Hf, Hav.
      destruct (negb (in_array (fn_id f) avail)); eexists; reflexivity. }
    destruct Hstep as [d1 Hstep]. unfold bind at 1. rewrite Hstep.
    apply IH; [eexists; exact Hav | intros i Hi; apply Hcat; lia].
Qed.

Lemma mask_unavailable_spec dist masked :
  mask_unavailable m obs dist = inl masked ->
  length masked = length dist /\
  (forall i f avail,
      (i < length dist)%nat ->
      get_action m i = inl f ->
      lookup (observation obs) "available_actions" = inl avail ->
      in_array (fn_id f) avail = false ->
      nth i masked 0 = 0).
Proof.
  intros H. destruct (mask_loop_spec _ _ _ _ H) as (L & _ & Hmask).
  split; [exact L|].
  intros i f avail Hi. apply Hmask; lia.
Qed.

End Masking.

Lemma np_sum_scale (s : Q) (l : list Q) :
  np_sum (map (fun p => p / s) l) == np_sum l / s.
Proof.
  induction l as [|x l IH]; simpl.
  - unfold Qdiv. ring.
  - rewrite IH. unfold Qdiv. ring.
Qed.

Lemma renormalize_length d : length (renormalize d) = length d.
Proof.
  unfold renormalize. destruct (_ && _); [apply length_map | reflexivity].
Qed.

Lemma renormalize_zero_entry d i :
  nth i d 0 = 0 -> nth i (renormalize d) 0 == 0.
Proof.
  unfold renormalize. intros H.
  destruct (_ && _); [|rewrite H; reflexivity].
  destruct (Nat.lt_ge_cases i (length d)) as [Hi|Hi].
  - rewrite (nth_indep _ 0 (0 / np_sum d)) by (rewrite length_map; exact Hi).
    rewrite (map_nth (fun p => p / np_sum d) d 0 i), H.
    unfold Qdiv. ring.
  - rewrite nth_overflow by (rewrite length_map; exact Hi). reflexivity.
Qed.

Lemma renormalize_sum d : ~ np_sum d == 0 -> np_sum (renormalize d) == 1.
Proof.
  intros Hnz. unfold renormalize.
  destruct (Qeq_bool (np_sum d) 1) eqn:E1; simpl.
  - apply Qeq_bool_iff. exact E1.
  - destruct (Qeq_bool (np_sum d) 0) eqn:E0; simpl.
    + apply Qeq_bool_iff in E0. contradiction.
    + rewrite np_sum_scale. field. exact Hnz.
Qed.

Lemma renormalize_skipped d : np_sum d == 0 -> renormalize d = d.
Proof.
  intros Hz. unfold renormalize.
  apply Qeq_bool_iff in Hz. rewrite Hz, andb_false_r. reflexivity.
Qed.

(** C3, as the code has it: when the observation lists the available
    actions and every index of the distribution is an action of the
    catalogue, the filter and the renormalization return a distribution of
    the same length in which every entry of an unavailable action is 0; its
    entries sum to 1 when the filter leaves some mass, and it is the
    filtered distribution, left as it is, when the filter leaves none. *)
Theorem masking_renormalizes :
  forall (sc2 : SC2) (m : AgentModel) (obs : TimeStep) (dist : list Q)
         (avail : ndarray),
    lookup (observation obs) "available_actions" = inl avail ->
    (forall i, (i < length dist)%nat -> exists f, get_action m i = inl f) ->
    exists masked,
      mask_unavailable m obs dist = inl masked /\
      masked_distribution m obs dist = inl (renormalize masked) /\
      length (renormalize masked) = length dist /\
      (forall i f,
          (i < length dist)%nat ->
          get_action m i = inl f ->
          in_array (fn_id f) avail = false ->
          nth i (renormalize masked) 0 == 0) /\
      (~ np_sum masked == 0 -> np_sum (renormalize masked) == 1) /\
      (np_sum masked == 0 -> renormalize masked = masked).
Proof.
  intros sc2 m obs dist avail Hav Hcat.
  destruct (mask_loop_returns m obs (length dist) 0 dist) as [masked H].
  { exists avail; exact Hav. }
  { intros i Hi. apply Hcat. lia. }
  exists masked. split; [exact H|].
  destruct (mask_unavailable_spec m obs dist masked H) as [L Hmask].
  repeat split.
  - unfold masked_distribution. unfold mask_unavailable, range.
    rewrite H. reflexivity.
  - rewrite renormalize_length. exact L.
  - intros i f Hi Hf Hin.
    apply renormalize_zero_entry. eapply Hmask; eauto.
  - apply renormalize_sum.
  - apply renormalize_skipped.
Qed.

Lemma masking_renormalizes_witness :
  let obs := toy_obs empty_screen [0; 3]%Z 1 in
  let dist := [1 # 4; 1 # 4; 1 # 4; 1 # 4] in
  masked_distribution toy_model obs dist = inl [16 # 32; 0 # 8; 0 # 8; 16 # 32]
  /\ np_sum [16 # 32; 0 # 8; 0 # 8; 16 # 32] == 1.
Proof.
  intros obs dist.
  destruct (masking_renormalizes toy_sc2 toy_model obs dist
              {| shape := [2%nat]; data := [0; 3]%Z |})
    as (masked & Hm & Hd & _ & _ & Hs & _).
  - reflexivity.
  - intros i Hi.
    destruct i as [|[|[|[|i]]]]; try (eexists; vm_compute; reflexivity).
    simpl in Hi. lia.
  - assert (E : masked = [1 # 4; 0; 0; 1 # 4]).
    { vm_compute in Hm. injection Hm as <-. reflexivity. }
    subst masked. split.
    + rewrite Hd. vm_compute. reflexivity.
    + change [16 # 32; 0 # 8; 0 # 8; 16 # 32]
        with (renormalize [1 # 4; 0; 0; 1 # 4]).
      apply Hs. vm_compute. discriminate.
Defined.

(** C3, as stated, fails: when the only available action is [no_op] and the
    network gives it probability 0, and when no available id belongs to the
    catalogue of the agent, the result sums to 0. *)
Lemma masking_sum_not_one :
  (np_sum [0; 1 # 2; 1 # 2; 0] == 1 /\
   ~ (exists out,
        masked_distribution toy_model (toy_obs empty_screen [0]%Z 1)
          [0; 1 # 2; 1 # 2; 0] = inl out /\ np_sum out == 1)) /\
  (np_sum [1 # 4; 1 # 4; 1 # 4; 1 # 4] == 1 /\
   ~ (exists out,
        masked_distribution toy_model (toy_obs empty_screen [7]%Z 1)
          [1 # 4; 1 # 4; 1 # 4; 1 # 4] = inl out /\ np_sum out == 1)).
Proof.
  split; (split; [vm_compute; reflexivity|]);
    intros (out & H & Hs); vm_compute in H; inversion H; subst;
    vm_compute in Hs; discriminate Hs.
Qed.

(** ** Sampling *)

Lemma Qltb_true a b : Qltb a b = true <-> a < b.
Proof.
  unfold Qltb. rewrite negb_true_iff. split.
  - intros H. apply Qnot_le_lt. intros Hle.
    apply Qle_bool_iff in Hle. congruence.
  - intros H. destruct (Qle_bool b a) eqn:E; [|reflexivity].
    apply Qle_bool_iff in E. exfalso. apply (Qlt_not_le _ _ H E).
Qed.

(** [np.random.choice] rejects probabilities that sum to 0. *)
Lemma np_random_choice_zero_mass u p :
  np_sum p == 0 -> np_random_choice u p p = inr ValueError.
Proof.
  intros Hz. unfold np_random_choice.
  destruct (length p =? 0)%nat; [reflexivity|].
  rewrite Nat.eqb_refl. cbn [negb].
  destruct (existsb _ p); [reflexivity|].
  assert (Hlt : Qltb choice_atol (Qabs (np_sum p - 1)) = true).
  { apply Qltb_true. rewrite Hz. vm_compute. reflexivity. }
  rewrite Hlt. reflexivity.
Qed.

(** C6, as the code has it: when the filter leaves no mass, the
    renormalization is skipped and the all-masked distribution itself goes
    to [sample_dist]; [np.random.choice] rejects it, so the selection raises
    [ValueError] whatever the random draw. *)
Theorem zero_mass_selection_raises :
  forall (sc2 : SC2) (m : AgentModel) (obs : TimeStep) (dist masked : list Q)
         (arg_dist : ArgDist) (draws : nat -> Q) (pos : nat),
    mask_unavailable m obs dist = inl masked ->
    np_sum masked == 0 ->
    masked_distribution m obs dist = inl masked /\
    sample_dist masked draws pos = inr ValueError /\
    select_action m obs dist arg_dist draws pos = inr ValueError.
Proof.
  intros sc2 m obs dist masked arg_dist draws pos Hm Hz.
  assert (Hd : masked_distribution m obs dist = inl masked).
  { unfold masked_distribution. rewrite Hm. cbn [bind ret].
    rewrite renormalize_skipped by exact Hz. reflexivity. }
  assert (Hs : sample_dist masked draws pos = inr ValueError).
  { unfold sample_dist. rewrite np_random_choice_zero_mass by exact Hz.
    reflexivity. }
  repeat split; [exact Hd | exact Hs |].
  unfold select_action, bindR, liftR. rewrite Hd. cbn [bind ret].
  rewrite Hs. reflexivity.
Qed.

Lemma zero_mass_selection_raises_witness :
  masked_distribution toy_model (toy_obs empty_screen [7]%Z 1)
    [1 # 4; 1 # 4; 1 # 4; 1 # 4] = inl [0; 0; 0; 0] /\
  sample_dist [0; 0; 0; 0] (fun _ => 0) 0%nat = inr ValueError /\
  select_action toy_model (toy_obs empty_screen [7]%Z 1)
    [1 # 4; 1 # 4; 1 # 4; 1 # 4] toy_arg_dist (fun _ => 0) 0%nat
  = inr ValueError.
Proof.
  apply (zero_mass_selection_raises toy_sc2 toy_model
           (toy_obs empty_screen [7]%Z 1) [1 # 4; 1 # 4; 1 # 4; 1 # 4]
           [0; 0; 0; 0] toy_arg_dist (fun _ => 0) 0%nat).
  - vm_compute. reflexivity.
  - vm_compute. reflexivity.
Defined.

(** C6, as stated, fails: with every action filtered out, sampling the
    original distribution would give an action, and the selection raises. *)
Lemma zero_mass_no_fallback :
  let obs := toy_obs empty_screen [7]%Z 1 in
  let dist := [1 # 4; 1 # 4; 1 # 4; 1 # 4] in
  mask_unavailable toy_model obs dist = inl [0; 0; 0; 0] /\
  sample_dist dist (fun _ => 0) 0%nat = inl (0%nat, 1%nat) /\
  ~ (exists sel pos',
        select_action toy_model obs dist toy_arg_dist (fun _ => 0) 0%nat
        = inl (sel, pos')).
Proof.
  intros obs dist. repeat split; try (vm_compute; reflexivity).
  intros (sel & pos' & H). vm_compute in H. discriminate H.
Qed.

(** The index [sample_dist] returns is the first one that holds the value
    drawn. *)
Lemma np_argmax_bool_first (l : list bool) : forall j,
  (j < np_argmax_bool l)%nat -> nth j l false = false.
Proof.
  induction l as [|b l IH]; intros j Hj; simpl in *; [lia|].
  destruct b; [lia|].
  destruct (existsb (fun b => b) l); [|lia].
  destruct j as [|j]; [reflexivity|]. apply IH. lia.
Qed.

Lemma np_argmax_bool_true (l : list bool) :
  existsb (fun b => b) l = true -> nth (np_argmax_bool l) l false = true.
Proof.
  induction l as [|b l IH]; simpl; [discriminate|].
  destruct b; [reflexivity|]. simpl. intros H. rewrite H. simpl. auto.
Qed.

Lemma sample_dist_first_index dist draws pos i pos' :
  sample_dist dist draws pos = inl (i, pos') ->
  forall j, (j < i)%nat -> ~ nth j dist 0 == nth i dist 0.
Proof.
  unfold sample_dist. intros H. inv_bind H. inversion H; subst; clear H.
  intros j Hj Heq.
  set (l := map (fun x => Qeq_bool x q) dist) in *.
  pose proof (np_argmax_bool_first l j Hj) as Hfalse.
  assert (Hex : existsb (fun b => b) l = true).
  { destruct (existsb (fun b => b) l) eqn:Ex; [reflexivity|].
    exfalso. clear -Hj Ex. revert j Hj. induction l as [|b l IH]; intros j Hj.
    - simpl in Hj. lia.
    - simpl in *. destruct b; [lia|]. simpl in Ex. rewrite Ex in Hj. lia. }
  pose proof (np_argmax_bool_true l Hex) as Htrue.
  assert (Hlen : (np_argmax_bool l < length dist)%nat).
  { destruct (Nat.lt_ge_cases (np_argmax_bool l) (length l)) as [Hl|Hl].
    - unfold l in Hl. rewrite length_map in Hl. exact Hl.
    - rewrite nth_overflow in Htrue by exact Hl. discriminate. }
  unfold l in Hfalse, Htrue.
  rewrite (nth_indep _ false (Qeq_bool 0 q)) in Hfalse
    by (rewrite length_map; lia).
  rewrite (nth_indep _ false (Qeq_bool 0 q)) in Htrue
    by (rewrite length_map; exact Hlen).
  rewrite (map_nth (fun x => Qeq_bool x q)) in Hfalse, Htrue.
  fold l in Hfalse, Htrue, Heq.
  apply Qeq_bool_iff in Htrue.
  rewrite Heq, Htrue in Hfalse.
  assert (Hq : Qeq_bool q q = true) by (apply Qeq_bool_iff; reflexivity).
  congruence.
Qed.

(** C8, what the code does on the distribution [[0.5, 0.5]]: whatever the
    uniform draw, [sample_dist] returns index 0, never index 1 (the draw
    picks one of the two equal values and the look-up finds the first). *)
Theorem sample_dist_ties_first :
  forall (draws : nat -> Q) (pos : nat),
    sample_dist [1 # 2; 1 # 2] draws pos = inl (0%nat, S pos) \/
    sample_dist [1 # 2; 1 # 2] draws pos = inr IndexError.
Proof.
  intros draws pos.
  unfold sample_dist, np_random_choice, searchsorted_right.
  cbn -[Qle_bool].
  destruct (Qle_bool _ (draws pos)); destruct (Qle_bool _ (draws pos));
    cbn; auto.
Qed.

(** ** Sentinels of unused arguments *)

Lemma py_in_name_args (name : string) (args : list ArgumentType) :
  py_in (PyStr name) (map PyArgumentType args) = false.
Proof. induction args; simpl; auto. Qed.

Lemma mark_unused_all (chosen : Function) (arg_sample : ArgSample) :
  Forall (fun entry => Forall (fun dv => snd dv = sentinel) (snd entry))
         (mark_unused chosen arg_sample).
Proof.
  unfold mark_unused.
  induction arg_sample as [|[name dims] rest IH]; simpl; constructor; auto.
  rewrite py_in_name_args. simpl.
  clear. induction dims as [|[dim v] dims IH]; simpl; constructor; auto.
Qed.

Lemma mapR_length {A B : Type} (f : A -> Rand B) (l : list A) :
  forall draws pos bs pos',
    mapR f l draws pos = inl (bs, pos') -> length bs = length l.
Proof.
  induction l as [|a l IH]; intros draws pos bs pos' H.
  - injection H as <- _. reflexivity.
  - cbn [mapR] in H. unfold bindR in H.
    destruct (f a draws pos) as [[b pos1]|e]; [|discriminate H].
    destruct (mapR f l draws pos1) as [[bs1 pos2]|e] eqn:E; [|discriminate H].
    injection H as <- _. simpl. f_equal. eapply IH; eauto.
Qed.

(** C4, what the code does: whichever action is chosen, the record
    [arg_sample] kept for training has one entry per distribution of
    [arg_dist] (one per argument type of [actions.TYPES] when [arg_dist] is
    the output of the network) and every value of every entry is the
    sentinel -1, the arguments the chosen action declares included (the test
    [arg_name not in chosen_action.args] compares a name with argument-type
    objects and always holds). *)
Theorem arg_sample_all_sentinel :
  forall (sc2 : SC2) (m : AgentModel) (obs : TimeStep) (dist : list Q)
         (arg_dist : ArgDist) (draws : nat -> Q) (pos : nat)
         (sel : Selection) (pos' : nat),
    select_action m obs dist arg_dist draws pos = inl (sel, pos') ->
    length (sel_arg_sample sel) = length arg_dist /\
    (arg_dist_sizes arg_dist = policy_arg_sizes m ->
     length (sel_arg_sample sel) = length TYPES) /\
    Forall (fun entry => Forall (fun dv => snd dv = sentinel) (snd entry))
           (sel_arg_sample sel).
Proof.
  intros sc2 m obs dist arg_dist draws pos sel pos' H.
  unfold select_action, bindR, liftR, retR in H.
  destruct (masked_distribution m obs dist) as [d|e]; [|discriminate H].
  cbn [bind ret] in H.
  destruct (sample_dist d draws pos) as [[base pos1]|e]; [|discriminate H].
  destruct (sample_arguments arg_dist draws pos1) as [[samples pos2]|e] eqn:Es;
    [|discriminate H].
  destruct (get_action m base) as [chosen|e]; [|discriminate H].
  cbn [bind ret] in H.
  destruct (collect_arguments chosen samples) as [arguments|e];
    [|discriminate H].
  cbn [bind ret] in H. injection H as <- _. cbn [sel_arg_sample].
  assert (L : length (mark_unused chosen samples) = length arg_dist).
  { unfold mark_unused. rewrite length_map. eapply mapR_length. exact Es. }
  split; [exact L|]. split; [|apply mark_unused_all].
  intros Hshape. rewrite L.
  rewrite <- (length_map (fun arg => (arg_name arg,
                combine (range (length (arg_sizes arg)))
                        (map (processed_size m arg) (arg_sizes arg)))) TYPES).
  fold (policy_arg_sizes m). rewrite <- Hshape.
  unfold arg_dist_sizes. rewrite length_map. reflexivity.
Qed.

Lemma arg_sample_all_sentinel_witness :
  exists sel pos',
    select_action toy_model (toy_obs empty_screen [2]%Z 1)
      [1 # 4; 1 # 4; 1 # 4; 1 # 4] toy_arg_dist (fun _ => 1 # 2) 0%nat
    = inl (sel, pos') /\
    sel_call sel = (2%Z, [[2%Z]; [0%Z; 0%Z]]) /\
    length (fn_args {| fn_id := 2;
                       fn_args := [T_select_point_act; T_screen] |}) = 2%nat /\
    length (sel_arg_sample sel) = 5%nat /\
    Forall (fun entry => Forall (fun dv => snd dv = sentinel) (snd entry))
           (sel_arg_sample sel).
Proof.
  eexists. eexists. split; [vm_compute; reflexivity|].
  split; [reflexivity|]. split; [reflexivity|].
  destruct (arg_sample_all_sentinel toy_sc2 toy_model
              (toy_obs empty_screen [2]%Z 1) [1 # 4; 1 # 4; 1 # 4; 1 # 4]
              toy_arg_dist (fun _ => 1 # 2) 0%nat _ 9%nat
              ltac:(vm_compute; reflexivity)) as (_ & Htypes & Hall).
  split; [|exact Hall].
  apply Htypes. vm_compute. reflexivity.
Defined.

(** ** The memory of units seen *)

Lemma nth_as_nth_error {A : Type} (l : list A) : forall i d,
  nth i l d = match nth_error l i with Some x => x | None => d end.
Proof.
  induction l as [|x l IH]; intros [|i] d; simpl; auto.
Qed.

Lemma nth_of_nth_error {A : Type} (l l' : list A) i d :
  nth_error l i = nth_error l' i -> nth i l d = nth i l' d.
Proof.
  intros H. rewrite !nth_as_nth_error, H. reflexivity.
Qed.

Lemma pymax_ge_left a b : a <= pymax a b.
Proof.
  unfold pymax. destruct (Qltb a b) eqn:E.
  - apply Qltb_true in E. apply Qlt_le_weak. exact E.
  - apply Qle_refl.
Qed.

Lemma pymax_unseen a b : 0 <= a -> b == 0 -> pymax a b = a.
Proof.
  intros Ha Hb. unfold pymax. destruct (Qltb a b) eqn:E; [|reflexivity].
  apply Qltb_true in E. rewrite Hb in E.
  exfalso. apply (Qlt_not_le _ _ E Ha).
Qed.

Section UnitsSeen.
Context {sc2 : SC2}.

Lemma decay_loop_spec enemy n : forall a mus out,
  for_each (seq a n) (decay_step enemy) mus = inl out ->
  length out = length mus /\
  (forall i, (i < a \/ a + n <= i)%nat -> nth_error out i = nth_error mus i) /\
  (forall i, (a <= i < a + n)%nat ->
             nth i out 0 = pymax (nth i mus 0 * 3 / 4) (nth i enemy 0)).
Proof.
  induction n as [|n IH]; intros a mus out H; simpl in H.
  - inversion H; subst. repeat split; auto. intros; lia.
  - unfold bind in H.
    destruct (decay_step enemy a mus) as [mus1|e] eqn:E; [|discriminate].
    destruct (IH (S a) mus1 out H) as (L & Hout & Hin).
    unfold decay_step in E. inv_bind E. inversion E; subst; clear E.
    destruct (index_inl _ _ _ 0 E0) as [Ha Hold].
    destruct (index_inl _ _ _ 0 E1) as [_ Hseen].
    repeat split.
    + rewrite L. apply length_set_nth.
    + intros i Hi. rewrite Hout by lia.
      apply nth_error_set_nth_neq. lia.
    + intros i Hi. destruct (Nat.eq_dec i a) as [->|Hne].
      * rewrite (nth_of_nth_error out (set_nth mus a (pymax (q * 3 / 4) q0)))
          by (apply Hout; lia).
        rewrite nth_set_nth_eq by exact Ha. congruence.
      * rewrite Hin by lia. rewrite nth_set_nth_neq by lia. reflexivity.
Qed.

Lemma decay_units_seen_spec mus enemy out :
  decay_units_seen mus enemy = inl out ->
  length out = length mus /\
  nth_error out 0 = nth_error mus 0 /\
  (forall i, (1 <= i < UNIT_TYPES)%nat ->
             nth i out 0 = pymax (nth i mus 0 * 3 / 4) (nth i enemy 0)) /\
  (forall i, (UNIT_TYPES <= i)%nat -> nth i out 0 = nth i mus 0).
Proof.
  unfold decay_units_seen, range_from. intros H.
  destruct (decay_loop_spec _ _ _ _ _ H) as (L & Hout & Hin).
  split; [exact L|]. split; [apply Hout; lia|]. split.
  - intros i Hi. apply Hin. lia.
  - intros i Hi. apply nth_of_nth_error, Hout. lia.
Qed.

Lemma update_units_seen_spec m obs m' :
  update_units_seen m obs = inl m' ->
  exists enemy,
    count_enemy_units m obs = inl enemy /\
    decay_units_seen (max_units_seen m) enemy = inl (max_units_seen m') /\
    m' = with_max_units_seen m (max_units_seen m').
Proof.
  unfold update_units_seen. intros H. inv_bind H. inversion H; subst.
  eexists; repeat split; eauto.
Qed.

Lemma process_observation_model m obs m' p :
  process_observation m obs = inl (m', p) -> update_units_seen m obs = inl m'.
Proof.
  unfold process_observation. intros H. inv_bind H. inversion H; subst.
  reflexivity.
Qed.

Lemma act_max_units_seen m a m' :
  act m a = inl m' -> max_units_seen m' = max_units_seen m.
Proof.
  unfold act. intros H.
  destruct (a <? length (general_actions m))%nat; inv_bind H;
    inversion H; subst; reflexivity.
Qed.

Lemma nth_np_zeros n i : nth i (np_zeros n) 0 = 0.
Proof.
  unfold np_zeros. revert i. induction n; intros [|i]; simpl; auto.
Qed.

Lemma Reachable_units_seen_ok m0 m : Reachable m0 m -> units_seen_ok m.
Proof.
  induction 1 as [|m m' obs p Hr IH Hp|m m' a Hr IH Ha].
  - unfold units_seen_ok, reset; cbn [max_units_seen].
    repeat split.
    + apply repeat_length.
    + intros i. rewrite nth_np_zeros. apply Qle_refl.
    + apply nth_np_zeros.
  - apply process_observation_model in Hp.
    destruct (update_units_seen_spec _ _ _ Hp) as (enemy & _ & Hd & _).
    destruct (decay_units_seen_spec _ _ _ Hd) as (L & H0 & Hin & Hout).
    destruct IH as (IL & Inn & I0).
    repeat split.
    + congruence.
    + intros i.
      destruct (Nat.eq_dec i 0) as [->|Hne].
      * rewrite (nth_of_nth_error _ _ 0 0 H0). apply Inn.
      * destruct (Nat.lt_ge_cases i UNIT_TYPES) as [Hi|Hi].
        -- rewrite Hin by lia.
           eapply Qle_trans; [|apply pymax_ge_left].
           specialize (Inn i).
           unfold Qdiv. apply Qmult_le_0_compat; [|discriminate].
           apply Qmult_le_0_compat; [exact Inn | discriminate].
        -- rewrite Hout by exact Hi. apply Inn.
    + rewrite (nth_of_nth_error _ _ 0 0 H0). exact I0.
  - unfold units_seen_ok. rewrite (act_max_units_seen _ _ _ Ha). exact IH.
Qed.

End UnitsSeen.

(** C7: at every step of an episode, for a unit type [i >= 1] the new entry
    is [max(old*3/4, count)]; when no enemy of type [i] is counted the entry
    becomes three quarters of itself, it does not grow, a positive entry
    stays positive, so that it never reaches 0, and an entry 0 stays 0. *)
Theorem unseen_units_decay :
  forall (sc2 : SC2) (m0 m m' : AgentModel) (obs : TimeStep) (p : Processed)
         (enemy : list Q) (i : nat),
    Reachable m0 m ->
    process_observation m obs = inl (m', p) ->
    count_enemy_units m obs = inl enemy ->
    (i < UNIT_TYPES)%nat ->
    ((1 <= i)%nat ->
       nth i (max_units_seen m') 0 =
       pymax (nth i (max_units_seen m) 0 * 3 / 4) (nth i enemy 0)) /\
    (nth i enemy 0 == 0 ->
       nth i (max_units_seen m') 0 == (3 # 4) * nth i (max_units_seen m) 0 /\
       nth i (max_units_seen m') 0 <= nth i (max_units_seen m) 0 /\
       (0 < nth i (max_units_seen m) 0 -> 0 < nth i (max_units_seen m') 0) /\
       (nth i (max_units_seen m) 0 == 0 ->
          nth i (max_units_seen m') 0 == 0)).
Proof.
  intros sc2 m0 m m' obs p enemy i Hr Hp Hc Hi.
  destruct (Reachable_units_seen_ok _ _ Hr) as (IL & Inn & I0).
  apply process_observation_model in Hp.
  destruct (update_units_seen_spec _ _ _ Hp) as (enemy' & Hc' & Hd & _).
  rewrite Hc in Hc'. inversion Hc'; subst enemy'; clear Hc'.
  destruct (decay_units_seen_spec _ _ _ Hd) as (L & H0 & Hin & _).
  split; [intros H1; apply Hin; lia|].
  intros Hunseen.
  assert (Hnew : nth i (max_units_seen m') 0 ==
                 (3 # 4) * nth i (max_units_seen m) 0).
  { destruct (Nat.eq_dec i 0) as [->|Hne].
    - rewrite (nth_of_nth_error _ _ 0 0 H0), I0. reflexivity.
    - rewrite Hin by lia. rewrite pymax_unseen.
      + unfold Qdiv. field.
      + unfold Qdiv. apply Qmult_le_0_compat; [|discriminate].
        apply Qmult_le_0_compat; [apply Inn | discriminate].
      + exact Hunseen. }
  pose proof (Inn i) as Hold.
  split; [exact Hnew|]. split; [rewrite Hnew; lra|]. split.
  - intros Hpos. rewrite Hnew. lra.
  - intros Hzero. rewrite Hnew, Hzero. reflexivity.
Qed.

Lemma unseen_units_decay_witness :
  exists m1 p1 m2 p2,
    process_observation toy_model (toy_obs (enemy_screen 2) [0; 1]%Z 1)
      = inl (m1, p1) /\
    process_observation m1 (toy_obs empty_screen [0; 1]%Z 1) = inl (m2, p2) /\
    nth 2 (max_units_seen m1) 0 == 1 /\
    nth 2 (max_units_seen m2) 0 == (3 # 4) * nth 2 (max_units_seen m1) 0 /\
    nth 2 (max_units_seen m2) 0 <= nth 2 (max_units_seen m1) 0 /\
    0 < nth 2 (max_units_seen m2) 0.
Proof.
  destruct (process_observation toy_model
              (toy_obs (enemy_screen 2) [0; 1]%Z 1)) as [[m1 p1]|e] eqn:E1;
    [|vm_compute in E1; discriminate E1].
  destruct (process_observation m1 (toy_obs empty_screen [0; 1]%Z 1))
    as [[m2 p2]|e] eqn:E2;
    [|vm_compute in E1; inversion E1; subst; vm_compute in E2; discriminate E2].
  exists m1, p1, m2, p2.
  assert (Hr : Reachable (sc2 := toy_sc2) toy_model m1).
  { eapply Reachable_observation; [apply Reachable_reset|exact E1]. }
  assert (H1 : nth 2 (max_units_seen m1) 0 == 1).
  { vm_compute in E1. inversion E1; subst. vm_compute. reflexivity. }
  assert (Hc : count_enemy_units m1 (toy_obs empty_screen [0; 1]%Z 1)
               = inl [0; 0; 0; 0]).
  { vm_compute in E1. inversion E1; subst. vm_compute. reflexivity. }
  destruct (unseen_units_decay toy_sc2 toy_model m1 m2 _ p2 _ 2%nat
              Hr E2 Hc) as [_ Hdecay].
  { vm_compute. lia. }
  destruct Hdecay as (Ha & Hb & Hpos & _); [reflexivity|].
  split; [reflexivity|]. split; [exact E2|]. split; [exact H1|].
  split; [exact Ha|]. split; [exact Hb|].
  apply Hpos. rewrite H1. reflexivity.
Defined.

(** C7, what the code does on binary64 numbers: an entry 1 that is not seen
    is after 2585 updates [2^-1073], about 9.88e-324, which is positive, and
    every further update leaves it there: [2^-1073 * 3 / 4] rounds back to
    [2^-1073].  The entry stops decreasing and never reaches 0. *)
Lemma unseen_entry_stalls_in_binary64 :
  unseen_steps_f64 (sc2 := toy_sc2) 2585 ([0; 1; 0; 0])%float
    = inl ([0; 0x1p-1073; 0; 0])%float /\
  PrimFloat.ltb 0%float 0x1p-1073%float = true /\
  decay_units_seen_f64 (sc2 := toy_sc2)
    ([0; 0x1p-1073; 0; 0])%float ([0; 0; 0; 0])%float
    = inl ([0; 0x1p-1073; 0; 0])%float /\
  PrimFloat.ltb (PrimFloat.div (PrimFloat.mul 0x1p-1073%float 3%float) 4%float)
                0x1p-1073%float = false /\
  forall n : nat,
    unseen_steps_f64 (sc2 := toy_sc2) n ([0; 0x1p-1073; 0; 0])%float
    = inl ([0; 0x1p-1073; 0; 0])%float.
Proof.
  split; [vm_compute; reflexivity|].
  split; [vm_compute; reflexivity|].
  assert (Hfix : decay_units_seen_f64 (sc2 := toy_sc2)
                   ([0; 0x1p-1073; 0; 0])%float ([0; 0; 0; 0])%float
                 = inl ([0; 0x1p-1073; 0; 0])%float)
    by (vm_compute; reflexivity).
  split; [exact Hfix|].
  split; [vm_compute; reflexivity|].
  induction n as [|n IH]; [reflexivity|].
  cbn [unseen_steps_f64 length repeat]. rewrite Hfix. exact IH.
Qed.

(** C10: [process_observation] leaves entry 0 of [max_units_seen] as it is,
    so from [reset] on it is 0 through the whole episode, whatever the
    screens show. *)
Theorem unit_type_zero_never_updated :
  forall (sc2 : SC2),
    (forall (m m' : AgentModel) (obs : TimeStep) (p : Processed),
        process_observation m obs = inl (m', p) ->
        nth_error (max_units_seen m') 0 = nth_error (max_units_seen m) 0) /\
    (forall (m0 m : AgentModel),
        Reachable m0 m -> nth 0 (max_units_seen m) 0 = 0).
Proof.
  intros sc2. split.
  - intros m m' obs p Hp.
    apply process_observation_model in Hp.
    destruct (update_units_seen_spec _ _ _ Hp) as (enemy & _ & Hd & _).
    destruct (decay_units_seen_spec _ _ _ Hd) as (_ & H0 & _).
    exact H0.
  - intros m0 m Hr.
    destruct (Reachable_units_seen_ok _ _ Hr) as (_ & _ & I0). exact I0.
Qed.

Lemma unit_type_zero_never_updated_witness :
  count_enemy_units toy_model (toy_obs (enemy_screen 0) [0; 1]%Z 1)
    = inl [1; 0; 0; 0] /\
  exists m1 p1,
    process_observation toy_model (toy_obs (enemy_screen 0) [0; 1]%Z 1)
      = inl (m1, p1) /\
    nth_error (max_units_seen m1) 0 = Some 0 /\
    nth 0 (max_units_seen m1) 0 = 0.
Proof.
  split; [vm_compute; reflexivity|].
  destruct (process_observation toy_model
              (toy_obs (enemy_screen 0) [0; 1]%Z 1)) as [[m1 p1]|e] eqn:E1;
    [|vm_compute in E1; discriminate E1].
  exists m1, p1. split; [reflexivity|].
  destruct (unit_type_zero_never_updated toy_sc2) as [Hstep Hreach].
  split.
  - rewrite (Hstep toy_model m1 _ p1 E1). reflexivity.
  - apply (Hreach toy_model m1).
    eapply Reachable_observation; [apply Reachable_reset|exact E1].
Defined.

(** ** The length of the non-spatial stack *)

Lemma pad_to_length n flat out : pad_to n flat = inl out -> length out = n.
Proof.
  unfold pad_to. destruct (length flat <=? n)%nat eqn:E; [|discriminate].
  apply Nat.leb_le in E. intros H. injection H as <-.
  rewrite length_app. unfold np_zeros. rewrite repeat_length. lia.
Qed.

(** Evaluates the comparisons of literal labels in the goal and in the
    hypotheses. *)
Ltac eval_labels :=
  repeat match goal with
  | |- context [String.eqb ?a ?b] =>
      let v := eval vm_compute in (String.eqb a b) in
      match v with true => idtac | false => idtac end;
      change (String.eqb a b) with v
  | H : context [String.eqb ?a ?b] |- _ =>
      let v := eval vm_compute in (String.eqb a b) in
      match v with true => idtac | false => idtac end;
      change (String.eqb a b) with v in H
  end;
  cbn [orb negb bind ret] in *.

Ltac padded_case E :=
  eval_labels; unfold bind in E;
  match type of E with
  | match pad_to ?n ?flat with inl _ => _ | inr _ => _ end = _ =>
      let Ep := fresh "Ep" in
      destruct (pad_to n flat) as [padded|] eqn:Ep; [|discriminate E];
      apply pad_to_length in Ep; injection E as <-;
      rewrite length_app, Ep; reflexivity
  end.

Lemma append_features_length features : forall stack out,
  append_features features stack = inl out ->
  length out = (length stack + features_width features)%nat.
Proof.
  unfold append_features.
  induction features as [|[label feature] features IH]; intros stack out H.
  - simpl in H. inversion H; subst. simpl. lia.
  - cbn [for_each] in H. unfold bind at 1 in H.
    match type of H with
    | match ?b with inl _ => _ | inr _ => _ end = _ =>
        destruct b as [stack1|e] eqn:E; [|discriminate H]
    end.
    apply IH in H. rewrite H. clear H IH.
    cbn [features_width fold_right]. fold (features_width features).
    assert (Hw : length stack1 =
                 (length stack + feature_width label feature)%nat);
      [|lia].
    unfold feature_width, str_in, inject_data in *.
    cbn [existsb app lookup] in *.
    destruct (String.eqb_spec label "minimap") as [->|N1];
      [eval_labels; injection E as <-; lia|].
    destruct (String.eqb_spec label "screen") as [->|N2];
      [eval_labels; injection E as <-; lia|].
    destruct (String.eqb_spec label "cargo") as [->|N3];
      [padded_case E|].
    destruct (String.eqb_spec label "multi_select") as [->|N4];
      [padded_case E|].
    destruct (String.eqb_spec label "build_queue") as [->|N5];
      [padded_case E|].
    destruct (String.eqb_spec label "available_actions") as [->|N6];
      [eval_labels; injection E as <-; lia|].
    cbn [orb negb] in E |- *. injection E as <-.
    rewrite length_app, length_map. reflexivity.
Qed.

Section NonspatialLength.
Context {sc2 : SC2}.

Lemma available_mask_length m obs mask :
  available_mask m obs = inl mask -> length mask = action_count m.
Proof.
  unfold available_mask. intros H.
  apply (for_each_invariant (fun l => length l = action_count m)) in H; auto.
  - intros i x x' _ Hb Hx. inv_bind Hb.
    destruct (in_array _ _); inv_bind Hb; injection Hb as <-; auto.
    rewrite length_set_nth. exact Hx.
  - apply repeat_length.
Qed.

(** The length of the stack [process_observation] returns: the entries of
    the model, then what each feature of the observation adds. *)
Lemma process_observation_length m obs m' p :
  process_observation m obs = inl (m', p) ->
  length (p_nonspatial_stack p) =
    (length (max_units_seen m) + length (used_actions_N m)
     + length (used_actions_race m) + action_count m + 1
     + features_width (observation obs))%nat.
Proof.
  intros H. pose proof (process_observation_model _ _ _ _ H) as Hu.
  destruct (update_units_seen_spec _ _ _ Hu) as (enemy & _ & Hd & Hm').
  destruct (decay_units_seen_spec _ _ _ Hd) as (L & _).
  unfold process_observation in H. rewrite Hu in H. cbn [bind] in H.
  inv_bind H. injection H as <-. cbn [p_nonspatial_stack].
  apply append_features_length in E0. rewrite E0.
  apply available_mask_length in E.
  rewrite !length_app, E, L. rewrite Hm'. cbn. lia.
Qed.

End NonspatialLength.

Section ConformingObservations.
Context {sc2 : SC2}.





End ConformingObservations.

(** C9, what the code does on an observation in which no single unit is
    selected ([single_select] of shape [(0, 7)]): the stack has 7129 entries
    where [calculate_nonspatial_size] gives 7136, seven short;
    [single_select] is counted as one padded row in the size and appended
    unpadded to the stack.  With one row selected the two agree. *)
Theorem nonspatial_stack_short_without_single_select :
  (exists size,
      calculate_nonspatial_size toy_model = inl size /\
      Z.of_nat size = 7136%Z) /\
  (exists m' p,
      process_observation toy_model (toy_obs empty_screen [0; 1]%Z 0)
        = inl (m', p) /\
      Z.of_nat (length (p_nonspatial_stack p)) = 7129%Z) /\
  (exists m' p,
      process_observation toy_model (toy_obs empty_screen [0; 1]%Z 1)
        = inl (m', p) /\
      Z.of_nat (length (p_nonspatial_stack p)) = 7136%Z).
Proof.
  split.
  { destruct (calculate_nonspatial_size toy_model) as [size|e] eqn:E;
      [|vm_compute in E; discriminate E].
    exists size. split; [reflexivity|].
    vm_compute in E. injection E as <-. vm_compute. reflexivity. }
  split.
  - destruct (process_observation toy_model
                (toy_obs empty_screen [0; 1]%Z 0)) as [[m' p]|e] eqn:E;
      [|vm_compute in E; discriminate E].
    exists m', p. split; [reflexivity|].
    rewrite (process_observation_length _ _ _ _ E). vm_compute. reflexivity.
  - destruct (process_observation toy_model
                (toy_obs empty_screen [0; 1]%Z 1)) as [[m' p]|e] eqn:E;
      [|vm_compute in E; discriminate E].
    exists m', p. split; [reflexivity|].
    rewrite (process_observation_length _ _ _ _ E). vm_compute. reflexivity.
Qed.

(** * Further properties of the code *)

(** ** [discount] *)

Lemma Qsum_n_ext (f g : nat -> Q) n :
  (forall k, (k < n)%nat -> f k == g k) -> Qsum_n f n == Qsum_n g n.
Proof.
  induction n as [|n IH]; intros H; simpl; [reflexivity|].
  rewrite IH by (intros k Hk; apply H; lia). rewrite (H n) by lia.
  reflexivity.
Qed.

Lemma Qsum_n_shift (f : nat -> Q) n :
  Qsum_n f (S n) == f O + Qsum_n (fun k => f (S k)) n.
Proof.
  induction n as [|n IH]; [simpl; ring|].
  change (Qsum_n f (S (S n))) with (Qsum_n f (S n) + f (S n)).
  rewrite IH. simpl. ring.
Qed.

Lemma Qsum_n_scale (c : Q) (f : nat -> Q) n :
  c * Qsum_n f n == Qsum_n (fun k => c * f k) n.
Proof.
  induction n as [|n IH]; simpl; [ring|]. rewrite <- IH. ring.
Qed.

Lemma discount_spec_length x gamma :
  length (discount_spec x gamma) = length x.
Proof. induction x; simpl; congruence. Qed.

Lemma discount_spec_closed_form gamma x : forall i,
  nth i (discount_spec x gamma) 0 ==
  Qsum_n (fun k => Qpow gamma k * nth (i + k) x 0) (length x - i).
Proof.
  induction x as [|a x IH]; intros i.
  - destruct i; reflexivity.
  - destruct i as [|i].
    + cbn [discount_spec nth]. rewrite Nat.sub_0_r. cbn [length].
      rewrite Qsum_n_shift. cbn [Nat.add nth Qpow].
      assert (E : hd 0 (discount_spec x gamma) ==
                  nth 0 (discount_spec x gamma) 0)
        by (destruct (discount_spec x gamma); reflexivity).
      rewrite E, (IH O), Nat.sub_0_r, Qsum_n_scale.
      assert (Es : Qsum_n (fun k => gamma * (Qpow gamma k * nth (0 + k) x 0))
                     (length x) ==
                   Qsum_n (fun k => gamma * Qpow gamma k * nth k x 0)
                     (length x)).
      { apply Qsum_n_ext. intros k _. simpl. ring. }
      rewrite Es. ring.
    + change (nth (S i) (discount_spec (a :: x) gamma) 0)
        with (nth i (discount_spec x gamma) 0).
      rewrite IH. cbn [length Nat.sub]. apply Qsum_n_ext.
      intros k _. reflexivity.
Qed.

(** X1: [discount(x, gamma)[i]] is the sum of [gamma^k * x[i+k]] over the
    steps [i+k] that remain. *)
Theorem discount_closed_form :
  forall (x : list Q) (gamma : Q) (i : nat),
    nth i (discount x gamma) 0 ==
    Qsum_n (fun k => Qpow gamma k * nth (i + k) x 0) (length x - i).
Proof.
  intros x gamma i.
  rewrite (Qlist_eq_nth _ _ i (discount_refines x gamma)).
  apply discount_spec_closed_form.
Qed.

Lemma np_add_cons a x b y : np_add (a :: x) (b :: y) = (a + b) :: np_add x y.
Proof. reflexivity. Qed.

Lemma discount_spec_add gamma : forall x y,
  length x = length y ->
  Qlist_eq (discount_spec (np_add x y) gamma)
           (np_add (discount_spec x gamma) (discount_spec y gamma)).
Proof.
  induction x as [|a x IH]; intros [|b y] L; simpl in L; try lia.
  - constructor.
  - rewrite np_add_cons. cbn [discount_spec]. rewrite np_add_cons.
    specialize (IH y ltac:(lia)).
    constructor; [|exact IH].
    assert (E : hd 0 (discount_spec (np_add x y) gamma) ==
                hd 0 (discount_spec x gamma) + hd 0 (discount_spec y gamma)).
    { destruct x as [|a' x], y as [|b' y]; simpl in L; try lia.
      - simpl. ring.
      - rewrite np_add_cons in IH. cbn [discount_spec] in IH.
        rewrite np_add_cons in IH. inversion IH; subst.
        rewrite np_add_cons. cbn [discount_spec hd]. assumption. }
    rewrite E. ring.
Qed.

Lemma discount_spec_scale gamma c x :
  Qlist_eq (discount_spec (np_scale c x) gamma)
           (np_scale c (discount_spec x gamma)).
Proof.
  induction x as [|a x IH]; [constructor|].
  cbn [np_scale map discount_spec]. fold (np_scale c x).
  fold (np_scale c (discount_spec x gamma)).
  constructor; [|exact IH].
  assert (E : hd 0 (discount_spec (np_scale c x) gamma) ==
              c * hd 0 (discount_spec x gamma)).
  { destruct x as [|a' x]; [simpl; ring|].
    cbn [np_scale map discount_spec] in IH |- *. inversion IH; subst.
    cbn [hd]. assumption. }
  rewrite E. ring.
Qed.

Lemma Qlist_eq_sym l l' : Qlist_eq l l' -> Qlist_eq l' l.
Proof. induction 1; constructor; auto. symmetry; assumption. Qed.

Lemma np_add_proper x x' y y' :
  Qlist_eq x x' -> Qlist_eq y y' -> Qlist_eq (np_add x y) (np_add x' y').
Proof.
  intros Hx; revert y y'. induction Hx as [|a a' x x' Ea Hx IH];
    intros y y' Hy; [constructor|].
  inversion Hy as [|b b' ty ty' Eb Hy']; subst; [constructor|].
  rewrite !np_add_cons. constructor; [rewrite Ea, Eb; reflexivity|].
  apply IH. exact Hy'.
Qed.

Lemma np_scale_proper c x x' :
  Qlist_eq x x' -> Qlist_eq (np_scale c x) (np_scale c x').
Proof.
  induction 1 as [|a a' x x' Ea Hx IH]; [constructor|].
  cbn [np_scale map]. constructor; [rewrite Ea; reflexivity|exact IH].
Qed.

(** X2: [discount] is linear: on sequences of the same length it commutes
    with the element-wise sum, and it commutes with the product by a
    constant. *)
Theorem discount_linear :
  forall (x y : list Q) (c gamma : Q),
    length x = length y ->
    Qlist_eq (discount (np_add x y) gamma)
             (np_add (discount x gamma) (discount y gamma)) /\
    Qlist_eq (discount (np_scale c x) gamma)
             (np_scale c (discount x gamma)).
Proof.
  intros x y c gamma L. split.
  - eapply Qlist_eq_trans; [apply discount_refines|].
    eapply Qlist_eq_trans; [apply discount_spec_add; exact L|].
    apply np_add_proper; apply Qlist_eq_sym, discount_refines.
  - eapply Qlist_eq_trans; [apply discount_refines|].
    eapply Qlist_eq_trans; [apply discount_spec_scale|].
    apply np_scale_proper, Qlist_eq_sym, discount_refines.
Qed.

Lemma discount_linear_witness :
  Qlist_eq (discount (np_add [1; 2] [3; 4]) (1 # 2))
           (np_add (discount [1; 2] (1 # 2)) (discount [3; 4] (1 # 2))) /\
  Qlist_eq (discount (np_scale 3 [1; 2]) (1 # 2))
           (np_scale 3 (discount [1; 2] (1 # 2))).
Proof.
  apply (discount_linear [1; 2] [3; 4] 3 (1 # 2)). reflexivity.
Defined.

(** ** The targets of [Worker.train] *)

Lemma removelast_cons_nonempty {A : Type} (a : A) (l : list A) :
  l <> [] -> removelast (a :: l) = a :: removelast l.
Proof. destruct l; [congruence | reflexivity]. Qed.

Lemma app_singleton_nonempty {A : Type} (l : list A) (b : A) : l ++ [b] <> [].
Proof. destruct l; discriminate. Qed.

Lemma discount_spec_nonempty x gamma : x <> [] -> discount_spec x gamma <> [].
Proof. destruct x; [congruence | discriminate]. Qed.

Lemma td_residuals_cons s rest gamma b :
  td_residuals (s :: rest) gamma b =
  (rs_r s + gamma * hd 0 (map rs_v rest ++ [b]) - rs_v s)
  :: td_residuals rest gamma b.
Proof.
  unfold td_residuals. cbn [map app tl].
  rewrite removelast_cons_nonempty by apply app_singleton_nonempty.
  destruct (map rs_v rest ++ [b]) as [|x xs] eqn:E;
    [exfalso; eapply app_singleton_nonempty; exact E|].
  reflexivity.
Qed.

(** The discounted rewards, on the recurrence of [discount]. *)
Lemma returns_spec_cons r rs gamma b :
  removelast (discount_spec ((r :: rs) ++ [b]) gamma) =
  (r + gamma * hd 0 (discount_spec (rs ++ [b]) gamma))
  :: removelast (discount_spec (rs ++ [b]) gamma).
Proof.
  cbn [app discount_spec].
  apply removelast_cons_nonempty, discount_spec_nonempty,
    app_singleton_nonempty.
Qed.

Lemma hd_removelast_returns r rs gamma b :
  hd 0 (removelast (discount_spec ((r :: rs) ++ [b]) gamma)) =
  hd 0 (discount_spec ((r :: rs) ++ [b]) gamma).
Proof. rewrite returns_spec_cons. reflexivity. Qed.

Lemma Qlist_eq_hd l l' : Qlist_eq l l' -> hd 0 l == hd 0 l'.
Proof. destruct 1; simpl; auto with qarith. Qed.

Lemma np_sub_cons a x b y : np_sub (a :: x) (b :: y) = (a - b) :: np_sub x y.
Proof. reflexivity. Qed.

Lemma advantages_spec_telescope gamma b : forall rollout,
  Qlist_eq (discount_spec (td_residuals rollout gamma b) gamma)
           (np_sub (removelast (discount_spec (map rs_r rollout ++ [b]) gamma))
                   (map rs_v rollout)).
Proof.
  induction rollout as [|s rest IH]; [constructor|].
  rewrite td_residuals_cons. cbn [map discount_spec].
  rewrite returns_spec_cons, np_sub_cons.
  constructor; [|exact IH].
  destruct rest as [|s1 rest1].
  - simpl. ring.
  - apply Qlist_eq_hd in IH.
    cbn [map] in IH. rewrite returns_spec_cons, np_sub_cons in IH.
    cbn [hd] in IH.
    cbn [map app hd]. rewrite IH.
    cbn [discount_spec hd]. ring.
Qed.

Lemma Qlist_eq_removelast l l' :
  Qlist_eq l l' -> Qlist_eq (removelast l) (removelast l').
Proof.
  induction 1 as [|a a' l l' Ea H IH]; [constructor|].
  destruct H as [|b b' l l' Eb H]; [constructor|].
  rewrite !removelast_cons_nonempty by discriminate.
  constructor; [exact Ea | exact IH].
Qed.

Lemma np_sub_proper x x' y y' :
  Qlist_eq x x' -> Qlist_eq y y' -> Qlist_eq (np_sub x y) (np_sub x' y').
Proof.
  intros Hx; revert y y'. induction Hx as [|a a' x x' Ea Hx IH];
    intros y y' Hy; [constructor|].
  inversion Hy as [|b b' ty ty' Eb Hy']; subst; [constructor|].
  rewrite !np_sub_cons. constructor; [rewrite Ea, Eb; reflexivity|].
  apply IH. exact Hy'.
Qed.

Lemma Qlist_eq_same l : Qlist_eq l l.
Proof. induction l; constructor; auto with qarith. Qed.

(** X3: the advantages [Worker.train] feeds to the network are the
    discounted returns minus the value estimates, step by step: the sum of
    the discounted residuals [r + gamma*v' - v] telescopes. *)
Theorem advantages_are_returns_minus_values :
  forall (rollout : list RolloutStep) (gamma bootstrap_value : Q),
    Qlist_eq (snd (computeAdvantages rollout gamma bootstrap_value))
             (np_sub (fst (computeAdvantages rollout gamma bootstrap_value))
                     (map rs_v rollout)).
Proof.
  intros rollout gamma b. unfold computeAdvantages. cbn [fst snd].
  fold (td_residuals rollout gamma b).
  eapply Qlist_eq_trans; [apply discount_refines|].
  eapply Qlist_eq_trans; [apply advantages_spec_telescope|].
  apply np_sub_proper; [|apply Qlist_eq_same].
  apply Qlist_eq_removelast, Qlist_eq_sym, discount_refines.
Qed.

Lemma returns_spec_nth gamma b : forall rs i,
  nth i (removelast (discount_spec (rs ++ [b]) gamma)) 0 ==
  nth i rs 0
  + gamma * nth (S i) (removelast (discount_spec (rs ++ [b]) gamma) ++ [b]) 0.
Proof.
  induction rs as [|r rs IH]; intros i.
  - destruct i as [|[|i]]; simpl; ring.
  - rewrite returns_spec_cons. destruct i as [|i].
    + cbn [nth app]. destruct rs as [|r1 rs1].
      * simpl. ring.
      * rewrite (returns_spec_cons r1 rs1).
        cbn [nth app hd discount_spec]. reflexivity.
    + cbn [nth app]. apply IH.
Qed.

Lemma returns_spec_zero gamma : forall rs,
  Qlist_eq (removelast (discount_spec (rs ++ [0]) gamma))
           (discount_spec rs gamma).
Proof.
  induction rs as [|r rs IH].
  - simpl. constructor.
  - rewrite returns_spec_cons. cbn [discount_spec].
    constructor; [|exact IH].
    apply Qlist_eq_hd in IH.
    destruct rs as [|r1 rs1].
    + simpl. ring.
    + rewrite hd_removelast_returns in IH. rewrite IH. reflexivity.
Qed.

(** X4: the value targets of [Worker.train] have one entry per step of the
    rollout and satisfy [target[i] = r[i] + gamma*target[i+1]], the value
    after the last step being the bootstrap value; with bootstrap value 0,
    at the end of an episode, they are [discount(rewards, gamma)]. *)
Theorem discounted_rewards_bootstrap :
  forall (rollout : list RolloutStep) (gamma bootstrap_value : Q),
    let targets := fst (computeAdvantages rollout gamma bootstrap_value) in
    length targets = length rollout /\
    (forall i,
        nth i targets 0 ==
        nth i (map rs_r rollout) 0
        + gamma * nth (S i) (targets ++ [bootstrap_value]) 0) /\
    Qlist_eq (fst (computeAdvantages rollout gamma 0))
             (discount (map rs_r rollout) gamma).
Proof.
  intros rollout gamma b targets. subst targets.
  unfold computeAdvantages. cbn [fst].
  assert (E : forall c,
             Qlist_eq (removelast (discount (map rs_r rollout ++ [c]) gamma))
                      (removelast (discount_spec (map rs_r rollout ++ [c])
                                     gamma)))
    by (intros c; apply Qlist_eq_removelast, discount_refines).
  split; [|split].
  - rewrite (Forall2_length (E b)).
    assert (L : forall l : list Q, l <> [] ->
                  length (removelast l) = (length l - 1)%nat).
    { induction l as [|a [|a' l] IH]; intros H; try congruence; auto.
      rewrite removelast_cons_nonempty by discriminate.
      cbn [length]. rewrite IH by discriminate. cbn [length]. lia. }
    rewrite L by apply discount_spec_nonempty, app_singleton_nonempty.
    rewrite discount_spec_length, length_app, length_map. simpl. lia.
  - intros i.
    assert (En : forall j,
               nth j (removelast (discount (map rs_r rollout ++ [b]) gamma)
                      ++ [b]) 0 ==
               nth j (removelast (discount_spec (map rs_r rollout ++ [b])
                                    gamma) ++ [b]) 0).
    { intros j. apply Qlist_eq_nth.
      apply Forall2_app; [apply E | apply Qlist_eq_same]. }
    rewrite (Qlist_eq_nth _ _ i (E b)), En. apply returns_spec_nth.
  - eapply Qlist_eq_trans; [apply E|].
    eapply Qlist_eq_trans; [|apply Qlist_eq_sym, discount_refines].
    apply returns_spec_zero.
Qed.

(** ** [AgentModel]: the catalogue of actions *)

Lemma lookup_dim_dict_set {A : Type} (d : list (nat * A)) k v k' :
  lookup_dim (dict_set d k v) k' =
  if (k' =? k)%nat then inl v else lookup_dim d k'.
Proof.
  induction d as [|[k0 a] d IH]; simpl.
  - destruct (k' =? k)%nat; reflexivity.
  - destruct (k =? k0)%nat eqn:E0; simpl.
    + apply Nat.eqb_eq in E0; subst k0.
      destruct (k' =? k)%nat; reflexivity.
    + rewrite IH. destruct (k' =? k)%nat eqn:E1; [|reflexivity].
      apply Nat.eqb_eq in E1; subst k'. rewrite E0. reflexivity.
Qed.

Lemma index_actions_snoc actions : forall indices i a,
  index_actions indices i (actions ++ [a]) =
  dict_set (index_actions indices i actions) a (i + length actions)%nat.
Proof.
  induction actions as [|x actions IH]; intros indices i a; simpl.
  - rewrite Nat.add_0_r. reflexivity.
  - rewrite IH. f_equal. lia.
Qed.

Lemma index_actions_lookup actions : forall a,
  (~ In a actions -> lookup_dim (index_actions [] 0 actions) a = inr KeyError)
  /\
  (In a actions ->
   exists j, lookup_dim (index_actions [] 0 actions) a = inl j /\
             nth_error actions j = Some a /\
             forall i, nth_error actions i = Some a -> (i <= j)%nat).
Proof.
  induction actions as [|x actions IH] using rev_ind; intros a.
  - split; [reflexivity | intros []].
  - rewrite index_actions_snoc, lookup_dim_dict_set. cbn [Nat.add].
    destruct (a =? x)%nat eqn:E.
    + apply Nat.eqb_eq in E; subst x. split.
      * intros H. exfalso. apply H, in_or_app. right. left. reflexivity.
      * intros _. exists (length actions). split; [reflexivity|]. split.
        -- rewrite nth_error_app2 by lia. rewrite Nat.sub_diag. reflexivity.
        -- intros i Hi.
           assert (i < length (actions ++ [a]))%nat
             by (apply nth_error_Some; congruence).
           rewrite length_app in H. simpl in H. lia.
    + apply Nat.eqb_neq in E. destruct (IH a) as [Hout Hin]. split.
      * intros H. apply Hout. intros Hi. apply H, in_or_app. left. exact Hi.
      * intros H. apply in_app_or in H. destruct H as [H|[H|[]]];
          [|congruence].
        destruct (Hin H) as (j & Hj & Hn & Hlast).
        assert (Hlt : (j < length actions)%nat)
          by (apply nth_error_Some; congruence).
        exists j. split; [exact Hj|]. split.
        -- rewrite nth_error_app1 by exact Hlt. exact Hn.
        -- intros i Hi.
           destruct (Nat.lt_ge_cases i (length actions)) as [Hl|Hl].
           ++ rewrite nth_error_app1 in Hi by exact Hl. apply Hlast, Hi.
           ++ rewrite nth_error_app2 in Hi by exact Hl.
              destruct (i - length actions)%nat as [|k]; simpl in Hi.
              ** congruence.
              ** destruct k; discriminate.
Qed.

(** X5: the look-up dict [action_indices['N']] of [setup_actions] inverts
    the list of general actions: an id that is not in the list is a missing
    key, an id of the list is mapped to the last position that holds it,
    which is its position when the ids are distinct. *)
Theorem action_indices_inverts_actions :
  forall (m : AgentModel) (a : nat),
    (~ In a (general_actions m) ->
     lookup_dim (action_indices_N m) a = inr KeyError) /\
    (In a (general_actions m) ->
     exists j, lookup_dim (action_indices_N m) a = inl j /\
               nth_error (general_actions m) j = Some a /\
               forall i, nth_error (general_actions m) i = Some a ->
                         (i <= j)%nat) /\
    (NoDup (general_actions m) ->
     forall i, nth_error (general_actions m) i = Some a ->
               lookup_dim (action_indices_N m) a = inl i).
Proof.
  intros m a. unfold action_indices_N.
  destruct (index_actions_lookup (general_actions m) a) as [Hout Hin].
  split; [exact Hout|]. split; [exact Hin|].
  intros Hnd i Hi.
  destruct (Hin (nth_error_In _ _ Hi)) as (j & Hj & Hn & _).
  rewrite Hj. f_equal.
  apply (proj1 (NoDup_nth_error (general_actions m)) Hnd).
  - apply nth_error_Some. congruence.
  - congruence.
Qed.

Lemma action_indices_inverts_actions_witness :
  lookup_dim (action_indices_N toy_model) 7 = inr KeyError /\
  (exists j, lookup_dim (action_indices_N toy_model) 2 = inl j /\
             nth_error (general_actions toy_model) j = Some 2%nat /\
             forall i, nth_error (general_actions toy_model) i = Some 2%nat ->
                       (i <= j)%nat) /\
  lookup_dim (action_indices_N toy_model) 2 = inl 2%nat.
Proof.
  destruct (action_indices_inverts_actions toy_model 7) as [Hout _].
  destruct (action_indices_inverts_actions toy_model 2) as (_ & Hin & Hnd).
  split; [|split].
  - apply Hout. vm_compute. intros [H|[H|[H|[]]]]; discriminate H.
  - apply Hin. vm_compute. auto.
  - apply Hnd; [|reflexivity].
    vm_compute. repeat constructor; simpl; intuition discriminate.
Defined.

(** X6: [get_action] indexes the general actions followed by the race
    actions: it returns [FUNCTIONS[(general_actions + race_actions)[i]]],
    and raises [IndexError] from [len(general_actions) + len(race_actions)]
    on. *)
Theorem get_action_concatenation :
  forall (sc2 : SC2) (m : AgentModel) (i : nat),
    get_action m i =
      (f <- index (general_actions m ++ race_actions m) i ;;
       index FUNCTIONS f) /\
    ((length (general_actions m) + length (race_actions m) <= i)%nat ->
     get_action m i = inr IndexError).
Proof.
  intros sc2 m i.
  assert (E : get_action m i =
              (f <- index (general_actions m ++ race_actions m) i ;;
               index FUNCTIONS f)).
  { unfold get_action, index.
    destruct (i <? length (general_actions m))%nat eqn:Hlt.
    - apply Nat.ltb_lt in Hlt. rewrite nth_error_app1 by exact Hlt.
      reflexivity.
    - apply Nat.ltb_ge in Hlt. rewrite nth_error_app2 by exact Hlt.
      reflexivity. }
  split; [exact E|].
  intros H. rewrite E. unfold index.
  assert (Hn : nth_error (general_actions m ++ race_actions m) i = None)
    by (apply nth_error_None; rewrite length_app; exact H).
  rewrite Hn. reflexivity.
Qed.

Lemma get_action_concatenation_witness :
  get_action toy_model 3 =
    (f <- index (general_actions toy_model ++ race_actions toy_model) 3 ;;
     index FUNCTIONS f) /\
  get_action toy_model 4 = inr IndexError.
Proof.
  destruct (get_action_concatenation toy_sc2 toy_model 3) as [H _].
  destruct (get_action_concatenation toy_sc2 toy_model 4) as [_ H'].
  split; [exact H | apply H'; vm_compute; lia].
Defined.

(** ** [AgentModel]: the counters of [act] *)

Lemma np_sum_set_nth (l : list Q) : forall i x,
  index l i = inl x -> np_sum (set_nth l i (x + 1)) == np_sum l + 1.
Proof.
  induction l as [|a l IH]; intros [|i] x H; unfold index in H; simpl in H;
    try discriminate.
  - injection H as <-. simpl. ring.
  - simpl. rewrite (IH i x); [ring|].
    unfold index. destruct (nth_error l i); [exact H | discriminate H].
Qed.

Lemma same_settings_refl m : same_settings m m.
Proof. unfold same_settings; repeat split. Qed.

Lemma same_settings_trans m1 m2 m3 :
  same_settings m1 m2 -> same_settings m2 m3 -> same_settings m1 m3.
Proof.
  unfold same_settings.
  intros (A1 & A2 & A3 & A4 & A5 & A6 & A7 & A8 & A9)
         (B1 & B2 & B3 & B4 & B5 & B6 & B7 & B8 & B9).
  repeat split; congruence.
Qed.

(** What a call of [act] that returns changes. *)
Lemma act_spec :
  forall (sc2 : SC2) (m m' : AgentModel) (a : nat),
    act m a = inl m' ->
    last_action_used m' = a /\
    same_settings m' m /\
    max_units_seen m' = max_units_seen m /\
    length (used_actions_N m') = length (used_actions_N m) /\
    length (used_actions_race m') = length (used_actions_race m) /\
    np_sum (used_actions_N m') + np_sum (used_actions_race m') ==
      np_sum (used_actions_N m) + np_sum (used_actions_race m) + 1 /\
    (if (a <? length (general_actions m))%nat
     then nth a (used_actions_N m') 0 = nth a (used_actions_N m) 0 + 1 /\
          used_actions_race m' = used_actions_race m /\
          (forall j, j <> a ->
             nth j (used_actions_N m') 0 = nth j (used_actions_N m) 0)
     else nth (a - length (general_actions m)) (used_actions_race m') 0 =
            nth (a - length (general_actions m)) (used_actions_race m) 0 + 1
          /\ used_actions_N m' = used_actions_N m /\
          (forall j, j <> (a - length (general_actions m))%nat ->
             nth j (used_actions_race m') 0 = nth j (used_actions_race m) 0)).
Proof.
  intros sc2 m m' a H. unfold act in H.
  destruct (a <? length (general_actions m))%nat eqn:Hlt;
    inv_bind H; inv_bind E; injection E as <-; injection H as <-;
    cbn [last_action_used max_units_seen used_actions_N used_actions_race];
    destruct (index_inl _ _ _ 0 E0) as [Hi Hx]; subst q.
  - split; [reflexivity|]. split; [unfold same_settings; repeat split|].
    split; [reflexivity|]. split; [apply length_set_nth|].
    split; [reflexivity|].
    split; [rewrite np_sum_set_nth by exact E0; ring|].
    split; [apply nth_set_nth_eq; exact Hi|]. split; [reflexivity|].
    intros j Hj. apply nth_set_nth_neq. auto.
  - split; [reflexivity|]. split; [unfold same_settings; repeat split|].
    split; [reflexivity|]. split; [reflexivity|].
    split; [apply length_set_nth|].
    split; [rewrite np_sum_set_nth by exact E0; ring|].
    split; [apply nth_set_nth_eq; exact Hi|]. split; [reflexivity|].
    intros j Hj. apply nth_set_nth_neq. auto.
Qed.

(** X7: a call of [act] that returns records the action as the last one
    used and adds one to exactly one usage counter, the one of the action,
    every other counter being left as it is: the settings, the units seen
    and the sizes of the counters are kept and the counters total one
    more. *)
Theorem act_counts_one_action :
  forall (sc2 : SC2) (m m' : AgentModel) (a : nat),
    act m a = inl m' ->
    last_action_used m' = a /\
    same_settings m' m /\
    max_units_seen m' = max_units_seen m /\
    length (used_actions_N m') = length (used_actions_N m) /\
    length (used_actions_race m') = length (used_actions_race m) /\
    np_sum (used_actions_N m') + np_sum (used_actions_race m') ==
      np_sum (used_actions_N m) + np_sum (used_actions_race m) + 1 /\
    (if (a <? length (general_actions m))%nat
     then nth a (used_actions_N m') 0 = nth a (used_actions_N m) 0 + 1 /\
          used_actions_race m' = used_actions_race m /\
          (forall j, j <> a ->
             nth j (used_actions_N m') 0 = nth j (used_actions_N m) 0)
     else nth (a - length (general_actions m)) (used_actions_race m') 0 =
            nth (a - length (general_actions m)) (used_actions_race m) 0 + 1
          /\ used_actions_N m' = used_actions_N m /\
          (forall j, j <> (a - length (general_actions m))%nat ->
             nth j (used_actions_race m') 0 = nth j (used_actions_race m) 0)).
Proof.
  exact act_spec.
Qed.

Lemma act_counts_one_action_witness :
  exists m',
    act toy_model 3 = inl m' /\
    last_action_used m' = 3%nat /\
    np_sum (used_actions_N m') + np_sum (used_actions_race m') ==
      np_sum (used_actions_N toy_model)
      + np_sum (used_actions_race toy_model) + 1.
Proof.
  destruct (act toy_model 3) as [m'|e] eqn:E;
    [|vm_compute in E; discriminate E].
  exists m'. split; [reflexivity|].
  destruct (act_counts_one_action toy_sc2 toy_model m' 3 E)
    as (H1 & _ & _ & _ & _ & H2 & _).
  split; assumption.
Defined.

Section EpisodeInvariants.
Context {sc2 : SC2}.

Lemma process_observation_settings m obs m' p :
  process_observation m obs = inl (m', p) ->
  same_settings m' m /\
  used_actions_N m' = used_actions_N m /\
  used_actions_race m' = used_actions_race m /\
  last_action_used m' = last_action_used m.
Proof.
  intros H. apply process_observation_model in H.
  destruct (update_units_seen_spec _ _ _ H) as (_ & _ & _ & Hm').
  rewrite Hm'. unfold same_settings. repeat split.
Qed.

Lemma reset_settings m0 : same_settings (reset m0) m0.
Proof. unfold same_settings; repeat split. Qed.

(** What the models of an episode keep: the settings of the start and
    counters of the sizes of the two lists of actions. *)
Lemma Reachable_settings m0 m :
  Reachable m0 m ->
  same_settings m m0 /\
  length (used_actions_N m) = length (general_actions m0) /\
  length (used_actions_race m) = length (race_actions m0).
Proof.
  induction 1 as [|m m' obs p Hr IH Hp|m m' a Hr IH Ha].
  - split; [apply reset_settings|].
    unfold reset; cbn [used_actions_N used_actions_race].
    split; apply repeat_length.
  - destruct IH as (S & LN & LR).
    destruct (process_observation_settings _ _ _ _ Hp) as (S' & EN & ER & _).
    split; [eapply same_settings_trans; eassumption|].
    rewrite EN, ER. split; assumption.
  - destruct IH as (S & LN & LR).
    destruct (act_spec sc2 _ _ _ Ha)
      as (_ & S' & _ & LN' & LR' & _).
    split; [eapply same_settings_trans; eassumption|].
    rewrite LN', LR'. split; assumption.
Qed.

Lemma Acted_Reachable m0 n m : Acted m0 n m -> Reachable m0 m.
Proof.
  induction 1.
  - apply Reachable_reset.
  - eapply Reachable_observation; eassumption.
  - eapply Reachable_act; eassumption.
Qed.

Lemma np_sum_np_zeros n : np_sum (np_zeros n) == 0.
Proof. induction n; simpl; [reflexivity|]. rewrite IHn. ring. Qed.

End EpisodeInvariants.

(** X8: during an episode [act] returns for every action index below
    [len(general_actions) + len(race_actions)] and raises [IndexError] for
    every other one. *)
Theorem act_index_bounds :
  forall (sc2 : SC2) (m0 m : AgentModel) (a : nat),
    Reachable m0 m ->
    ((a < length (general_actions m) + length (race_actions m))%nat ->
     exists m', act m a = inl m') /\
    ((length (general_actions m) + length (race_actions m) <= a)%nat ->
     act m a = inr IndexError).
Proof.
  intros sc2 m0 m a Hr.
  destruct (Reachable_settings m0 m Hr)
    as ((_ & _ & _ & _ & _ & _ & EG & ER & _) & LN & LR).
  rewrite <- EG in LN. rewrite <- ER in LR.
  unfold act, index. split.
  - intros Ha. destruct (a <? length (general_actions m))%nat eqn:Hlt.
    + apply Nat.ltb_lt in Hlt.
      destruct (nth_error (used_actions_N m) a) eqn:E;
        [eexists; reflexivity|].
      apply nth_error_None in E. lia.
    + apply Nat.ltb_ge in Hlt.
      destruct (nth_error (used_actions_race m)
                  (a - length (general_actions m))) eqn:E;
        [eexists; reflexivity|].
      apply nth_error_None in E. lia.
  - intros Ha. destruct (a <? length (general_actions m))%nat eqn:Hlt.
    + apply Nat.ltb_lt in Hlt. lia.
    + assert (E : nth_error (used_actions_race m)
                    (a - length (general_actions m)) = None)
        by (apply nth_error_None; lia).
      rewrite E. reflexivity.
Qed.

Lemma act_index_bounds_witness :
  (exists m', act toy_model 2 = inl m') /\ act toy_model 4 = inr IndexError.
Proof.
  assert (Hr : Reachable (sc2 := toy_sc2) toy_model toy_model)
    by exact (Reachable_reset (sc2 := toy_sc2) toy_model).
  destruct (act_index_bounds toy_sc2 toy_model toy_model 2 Hr) as [H _].
  destruct (act_index_bounds toy_sc2 toy_model toy_model 4 Hr) as [_ H'].
  split; [apply H | apply H']; vm_compute; lia.
Defined.

(** X9: at every point of an episode the usage counters of the general and
    of the race actions total the number of calls of [act] since [reset]. *)
Theorem used_actions_total :
  forall (sc2 : SC2) (m0 m : AgentModel) (n : nat),
    Acted m0 n m ->
    np_sum (used_actions_N m) + np_sum (used_actions_race m) ==
    inject_Z (Z.of_nat n).
Proof.
  intros sc2 m0 m n H.
  induction H as [|n m m' obs p Ha IH Hp|n m m' a Ha IH Hact].
  - unfold reset; cbn [used_actions_N used_actions_race].
    rewrite !np_sum_np_zeros. reflexivity.
  - destruct (process_observation_settings _ _ _ _ Hp) as (_ & EN & ER & _).
    rewrite EN, ER. exact IH.
  - destruct (act_spec sc2 _ _ _ Hact)
      as (_ & _ & _ & _ & _ & Hsum & _).
    rewrite Hsum, IH, Nat2Z.inj_succ. unfold Z.succ.
    rewrite inject_Z_plus. reflexivity.
Qed.

Lemma used_actions_total_witness :
  exists m1 m2,
    act toy_model 0 = inl m1 /\ act m1 3 = inl m2 /\
    np_sum (used_actions_N m2) + np_sum (used_actions_race m2) ==
    inject_Z (Z.of_nat 2).
Proof.
  destruct (act toy_model 0) as [m1|e] eqn:E1;
    [|vm_compute in E1; discriminate E1].
  destruct (act m1 3) as [m2|e] eqn:E2;
    [|vm_compute in E1; injection E1 as <-; vm_compute in E2;
      discriminate E2].
  exists m1, m2. split; [reflexivity|]. split; [exact E2|].
  apply (used_actions_total toy_sc2 toy_model m2 2).
  eapply Acted_act; [|exact E2].
  eapply Acted_act; [|exact E1].
  apply (Acted_reset (sc2 := toy_sc2) toy_model).
Defined.

(** X10: the models of an episode started from [AgentModel.__init__] keep
    the value of [calculate_nonspatial_size], and copying any of them with
    [AgentModel(agent_model=m)] gives the model [__init__] built: the
    settings are carried over, the counters and the units seen are not. *)
Theorem copy_is_initial_model :
  forall (sc2 : SC2) (race_ : string)
         (screen_size_ minimap_size_ max_episodes_kept_ save_increment_ : nat)
         (m : AgentModel),
    let initial := AgentModel_init race_ screen_size_ minimap_size_
                     max_episodes_kept_ save_increment_ in
    Reachable initial m ->
    AgentModel_copy m = initial /\
    calculate_nonspatial_size m = calculate_nonspatial_size initial.
Proof.
  intros sc2 race_ ss ms mk si m initial Hr.
  destruct (Reachable_settings _ _ Hr)
    as ((S1 & S2 & S3 & S4 & S5 & S6 & S7 & S8 & S9) & _ & _).
  destruct (Reachable_units_seen_ok _ _ Hr) as (L & _ & _).
  split.
  - unfold AgentModel_copy. rewrite S1, S2, S3, S4, S5. reflexivity.
  - unfold calculate_nonspatial_size, size_step. rewrite S6, S9, L.
    unfold initial, AgentModel_init, reset; cbn [max_units_seen].
    unfold np_zeros. rewrite repeat_length. reflexivity.
Qed.

Lemma copy_is_initial_model_witness :
  exists m1,
    act toy_model 3 = inl m1 /\
    AgentModel_copy m1 = toy_model /\
    calculate_nonspatial_size m1 = calculate_nonspatial_size toy_model.
Proof.
  destruct (act toy_model 3) as [m1|e] eqn:E1;
    [|vm_compute in E1; discriminate E1].
  exists m1. split; [reflexivity|].
  assert (Hr : Reachable (sc2 := toy_sc2) toy_model m1)
    by (eapply Reachable_act;
        [apply (Reachable_reset (sc2 := toy_sc2) toy_model) | exact E1]).
  exact (copy_is_initial_model toy_sc2 "T"%string 8 8 30 100 m1 Hr).
Defined.

(** ** [process_observation]: the mask of available actions *)

Lemma for_each_ext {A S : Type} (f g : A -> S -> result S) (l : list A) :
  forall s,
    (forall a x, In a l -> f a x = g a x) ->
    for_each l f s = for_each l g s.
Proof.
  induction l as [|a l IH]; intros s H; [reflexivity|].
  cbn [for_each]. rewrite (H a s) by (left; reflexivity).
  unfold bind. destruct (g a s); [|reflexivity].
  apply IH. intros b x Hb. apply H. right. exact Hb.
Qed.

Section AvailableMask.
Context {sc2 : SC2}.
Variables (m : AgentModel) (obs : TimeStep).

Lemma available_loop_spec n : forall a acc out,
  for_each (seq a n)
    (fun i available_actions =>
       f <- get_action m i ;;
       avail <- lookup (observation obs) "available_actions" ;;
       if in_array (fn_id f) avail
       then (_ <- index available_actions i ;;
             ret (set_nth available_actions i 1))
       else ret available_actions) acc = inl out ->
  length out = length acc /\
  (forall i, (i < a \/ a + n <= i)%nat -> nth i out 0 = nth i acc 0) /\
  (forall i f avail,
      (a <= i < a + n)%nat ->
      get_action m i = inl f ->
      lookup (observation obs) "available_actions" = inl avail ->
      nth i out 0 = if in_array (fn_id f) avail then 1 else nth i acc 0).
Proof.
  induction n as [|n IH]; intros a acc out H; cbn [seq for_each] in H.
  - injection H as <-. repeat split; auto. intros; lia.
  - unfold bind at 1 in H.
    match type of H with
    | match ?b with inl _ => _ | inr _ => _ end = _ =>
        destruct b as [acc1|e] eqn:E; [|discriminate H]
    end.
    destruct (IH (S a) acc1 out H) as (L & Hout & Hin). clear IH.
    inv_bind E.
    assert (Hacc1 : length acc1 = length acc /\
                    (forall i, i <> a -> nth i acc1 0 = nth i acc 0) /\
                    nth a acc1 0 =
                      if in_array (fn_id f) n0 then 1 else nth a acc 0).
    { destruct (in_array (fn_id f) n0).
      - inv_bind E. injection E as <-.
        destruct (index_inl _ _ _ 0 E2) as [Ha _].
        split; [apply length_set_nth|]. split.
        + intros i Hi. apply nth_set_nth_neq. auto.
        + apply nth_set_nth_eq. exact Ha.
      - injection E as <-. repeat split. }
    destruct Hacc1 as (L1 & Hother & Hat).
    split; [congruence|]. split.
    + intros i Hi. rewrite Hout by lia. apply Hother. lia.
    + intros i f' avail Hi Hf Hav.
      destruct (Nat.eq_dec i a) as [->|Hne].
      * rewrite Hout by lia. rewrite Hat.
        replace f' with f by congruence.
        replace avail with n0 by congruence. reflexivity.
      * rewrite (Hin i f' avail) by (assumption || lia).
        rewrite Hother by exact Hne. reflexivity.
Qed.

End AvailableMask.

(** X11: the mask of available actions that [process_observation] puts in
    the stack has one entry per action of the model, 1 where the id of the
    action is among the available actions of the observation and 0
    elsewhere. *)
Theorem available_mask_marks_available :
  forall (sc2 : SC2) (m : AgentModel) (obs : TimeStep) (mask : list Q),
    available_mask m obs = inl mask ->
    length mask = action_count m /\
    (forall i f avail,
        (i < action_count m)%nat ->
        get_action m i = inl f ->
        lookup (observation obs) "available_actions" = inl avail ->
        nth i mask 0 = if in_array (fn_id f) avail then 1 else 0).
Proof.
  intros sc2 m obs mask H. unfold available_mask, range in H.
  destruct (available_loop_spec m obs _ _ _ _ H) as (L & _ & Hin).
  split.
  - rewrite L. apply repeat_length.
  - intros i f avail Hi Hf Hav.
    rewrite (Hin i f avail) by (assumption || lia).
    rewrite nth_np_zeros. reflexivity.
Qed.

Lemma available_mask_marks_available_witness :
  available_mask toy_model (toy_obs empty_screen [0; 3]%Z 1)
    = inl [1; 0; 0; 1] /\
  length [1; 0; 0; 1] = action_count toy_model.
Proof.
  assert (H : available_mask toy_model (toy_obs empty_screen [0; 3]%Z 1)
              = inl [1; 0; 0; 1]) by (vm_compute; reflexivity).
  split; [exact H|].
  apply (available_mask_marks_available toy_sc2 toy_model _ _ H).
Defined.

(** ** [process_observation]: the features appended to the stack *)

Lemma append_features_cons f features stack :
  append_features (f :: features) stack =
  (stack1 <- append_features [f] stack ;; append_features features stack1).
Proof.
  unfold append_features. cbn [for_each]. unfold bind.
  match goal with
  | |- match ?b with inl _ => _ | inr _ => _ end = _ => destruct b
  end; reflexivity.
Qed.

Lemma pad_to_cases n (flat : list Q) :
  pad_to n flat =
  if (n <? length flat)%nat then inr ValueError
  else inl (flat ++ np_zeros (n - length flat)).
Proof.
  unfold pad_to.
  destruct (Nat.leb_spec (length flat) n), (Nat.ltb_spec n (length flat));
    try lia; reflexivity.
Qed.

Lemma append_feature_result f stack :
  append_features [f] stack =
  if over_capacity f then inr ValueError
  else inl (stack ++ feature_entries f).
Proof.
  destruct f as [label feature].
  unfold append_features, over_capacity, feature_entries, feature_width,
    str_in, inject_data.
  cbn [for_each fst snd existsb app lookup].
  destruct (String.eqb_spec label "minimap") as [->|N1];
    [eval_labels; rewrite app_nil_r; reflexivity|].
  destruct (String.eqb_spec label "screen") as [->|N2];
    [eval_labels; rewrite app_nil_r; reflexivity|].
  destruct (String.eqb_spec label "cargo") as [->|N3].
  { eval_labels. rewrite pad_to_cases, !length_map.
    destruct (_ <? _)%nat; reflexivity. }
  destruct (String.eqb_spec label "multi_select") as [->|N4].
  { eval_labels. rewrite pad_to_cases, !length_map.
    destruct (_ <? _)%nat; reflexivity. }
  destruct (String.eqb_spec label "build_queue") as [->|N5].
  { eval_labels. rewrite pad_to_cases, !length_map.
    destruct (_ <? _)%nat; reflexivity. }
  destruct (String.eqb_spec label "available_actions") as [->|N6];
    cbn [orb negb andb bind ret].
  - rewrite app_nil_r. reflexivity.
  - reflexivity.
Qed.

(** What the loop over the features returns. *)
Lemma append_features_spec :
  forall (features : list (string * ndarray)) (stack : list Q),
    (existsb over_capacity features = true ->
     append_features features stack = inr ValueError) /\
    (existsb over_capacity features = false ->
     append_features features stack =
     inl (stack ++ flat_map feature_entries features)).
Proof.
  induction features as [|f features IH]; intros stack.
  - split; [discriminate|]. intros _. cbn [flat_map]. rewrite app_nil_r.
    reflexivity.
  - rewrite append_features_cons, append_feature_result. cbn [existsb].
    destruct (over_capacity f) eqn:Ef; cbn [orb bind].
    + split; [reflexivity | discriminate].
    + destruct (IH (stack ++ feature_entries f)) as [Hraise Hret]. split.
      * exact Hraise.
      * intros H. rewrite (Hret H). cbn [flat_map].
        rewrite app_assoc. reflexivity.
Qed.

(** X12: appending the features raises [ValueError] exactly when a padded
    feature ([cargo], [multi_select], [build_queue]) has more entries than
    its capacity; otherwise it returns the stack it was given, unchanged,
    followed by the entries of the features in their order, a padded
    feature being filled with zeros up to its capacity. *)
Theorem append_features_capacity :
  forall (features : list (string * ndarray)) (stack : list Q),
    (existsb over_capacity features = true ->
     append_features features stack = inr ValueError) /\
    (existsb over_capacity features = false ->
     append_features features stack =
     inl (stack ++ flat_map feature_entries features)).
Proof.
  exact append_features_spec.
Qed.

Lemma append_features_capacity_witness :
  append_features
    [("multi_select"%string,
      {| shape := [501; 7]%nat; data := repeat 0%Z (501 * 7) |})] []
  = inr ValueError /\
  append_features [("player"%string, zeros_array [2]%nat);
                   ("build_queue"%string, zeros_array [0; 7]%nat)] [1; 2]
  = inl ([1; 2]
         ++ flat_map feature_entries
              [("player"%string, zeros_array [2]%nat);
               ("build_queue"%string, zeros_array [0; 7]%nat)]).
Proof.
  split.
  - apply (append_features_capacity _ []). vm_compute. reflexivity.
  - apply (append_features_capacity _ [1; 2]). vm_compute. reflexivity.
Defined.

(** ** [process_observation]: what it returns *)

(** X13: when [process_observation] returns, the non-spatial stack is, in
    this order, the units seen after the update, the usage counters of the
    general and of the race actions, the mask of available actions, the last
    action used and the entries of the features of the observation; the
    reward is the one of the observation and the end-of-episode flag tells
    whether the step is the last one. *)
Theorem nonspatial_stack_layout :
  forall (sc2 : SC2) (m m' : AgentModel) (obs : TimeStep) (p : Processed),
    process_observation m obs = inl (m', p) ->
    exists mask,
      available_mask m obs = inl mask /\
      p_nonspatial_stack p =
        max_units_seen m' ++ used_actions_N m ++ used_actions_race m
        ++ mask ++ [inject_Z (Z.of_nat (last_action_used m))]
        ++ flat_map feature_entries (observation obs) /\
      p_reward p = reward obs /\
      (p_episode_end p = true <-> step_type obs = LAST).
Proof.
  intros sc2 m m' obs p H.
  pose proof (process_observation_model _ _ _ _ H) as Hu.
  destruct (update_units_seen_spec _ _ _ Hu) as (_ & _ & _ & Hm').
  unfold process_observation in H. rewrite Hu in H. cbn [bind] in H.
  destruct (available_mask m' obs) as [mask|e] eqn:Emask;
    [|discriminate H].
  cbn [bind] in H.
  match type of H with
  | context [append_features ?fs ?st] =>
      destruct (append_features_spec fs st) as [Hraise Hret];
      destruct (existsb over_capacity fs);
      [rewrite (Hraise eq_refl) in H; discriminate H
      |rewrite (Hret eq_refl) in H]
  end.
  cbn [bind] in H. inv_bind H. injection H as <-.
  exists mask. split; [|split; [|split]].
  - rewrite <- Emask. rewrite Hm'. reflexivity.
  - cbn [p_nonspatial_stack]. rewrite Hm' at 2 3 4.
    cbn [used_actions_N used_actions_race last_action_used
         with_max_units_seen].
    rewrite <- !app_assoc. reflexivity.
  - reflexivity.
  - cbn [p_episode_end]. destruct (step_type obs); cbn; split;
      congruence.
Qed.

Lemma nonspatial_stack_layout_witness :
  exists m' p mask,
    process_observation toy_model (toy_obs (enemy_screen 2) [0; 3]%Z 1)
      = inl (m', p) /\
    available_mask toy_model (toy_obs (enemy_screen 2) [0; 3]%Z 1)
      = inl mask /\
    firstn 13 (p_nonspatial_stack p) =
      [0; 0 # 4; 1; 0 # 4;  0; 0; 0;  0;  1; 0; 0; 1;  0].
Proof.
  destruct (process_observation toy_model
              (toy_obs (enemy_screen 2) [0; 3]%Z 1)) as [[m' p]|e] eqn:E;
    [|vm_compute in E; discriminate E].
  destruct (nonspatial_stack_layout toy_sc2 toy_model m' _ p E)
    as (mask & Hmask & Hstack & _).
  exists m', p, mask. split; [reflexivity|]. split; [exact Hmask|].
  rewrite Hstack.
  vm_compute in Hmask. injection Hmask as <-.
  vm_compute in E. injection E as <- _.
  vm_compute. reflexivity.
Defined.

(** ** [process_observation]: the scan of the screen *)

Lemma count_cell_agree s s' i j acc :
  get3 s _PLAYER_RELATIVE i j = get3 s' _PLAYER_RELATIVE i j ->
  get3 s _UNIT_TYPE i j = get3 s' _UNIT_TYPE i j ->
  forall (sc2 : SC2), count_cell s i j acc = count_cell s' i j acc.
Proof.
  intros H5 H6 sc2. unfold count_cell. rewrite H5, H6. reflexivity.
Qed.

(** X14: the count of enemy units reads the screen only at the rows below
    [screen.shape[0]] (the number of feature layers) and the columns below
    [screen.shape[1]] (the number of rows): two screens of the same shape
    that agree on the layers [_PLAYER_RELATIVE] and [_UNIT_TYPE] there give
    the same count, whatever the other cells hold. *)
Theorem count_enemy_units_scan_region :
  forall (sc2 : SC2) (m : AgentModel) (obs obs' : TimeStep)
         (s s' : ndarray) (n0 n1 : nat),
    lookup (observation obs) "screen" = inl s ->
    lookup (observation obs') "screen" = inl s' ->
    shape s = shape s' ->
    nth_error (shape s) 0 = Some n0 ->
    nth_error (shape s) 1 = Some n1 ->
    (forall i j, (i < n0)%nat -> (j < n1)%nat ->
       get3 s _PLAYER_RELATIVE i j = get3 s' _PLAYER_RELATIVE i j /\
       get3 s _UNIT_TYPE i j = get3 s' _UNIT_TYPE i j) ->
    count_enemy_units m obs = count_enemy_units m obs'.
Proof.
  intros sc2 m obs obs' s s' n0 n1 Hs Hs' Hshape H0 H1 Hcells.
  unfold count_enemy_units. rewrite Hs, Hs'. cbn [bind].
  rewrite <- Hshape. unfold index. rewrite H0. cbn [bind ret].
  apply for_each_ext. intros i acc Hi.
  rewrite H1. cbn [bind ret].
  apply for_each_ext. intros j acc' Hj.
  apply in_seq in Hi. apply in_seq in Hj.
  destruct (Hcells i j ltac:(lia) ltac:(lia)) as [H5 H6].
  apply count_cell_agree; assumption.
Qed.

Lemma count_enemy_units_scan_region_witness :
  count_enemy_units toy_model (toy_obs (enemy_screen_at 7 0 2) [0]%Z 1) =
  count_enemy_units toy_model (toy_obs empty_screen [0]%Z 1) /\
  count_enemy_units toy_model (toy_obs empty_screen [0]%Z 1)
  = inl [0; 0; 0; 0].
Proof.
  split; [|vm_compute; reflexivity].
  apply (count_enemy_units_scan_region toy_sc2 toy_model _ _
           (enemy_screen_at 7 0 2) empty_screen 7 8);
    try reflexivity.
  intros i j Hi Hj.
  do 7 (destruct i as [|i];
        [do 8 (destruct j as [|j]; [vm_compute; split; reflexivity|]); lia|]).
  lia.
Defined.

(** ** The filter of unavailable actions and the renormalization *)

(** X15: renormalizing twice is renormalizing once: the result of
    [renormalize] sums to 1 or to 0 and is left as it is by a second
    pass. *)
Theorem renormalize_idempotent :
  forall (dist : list Q), renormalize (renormalize dist) = renormalize dist.
Proof.
  intros dist.
  destruct (Qeq_bool (np_sum dist) 0) eqn:E0.
  - apply Qeq_bool_iff in E0.
    rewrite (renormalize_skipped dist E0). apply renormalize_skipped, E0.
  - assert (Hnz : ~ np_sum dist == 0).
    { intros H. apply Qeq_bool_iff in H. congruence. }
    pose proof (renormalize_sum dist Hnz) as H1.
    apply Qeq_bool_iff in H1.
    unfold renormalize at 1. rewrite H1. reflexivity.
Qed.

Lemma np_sum_nonneg (l : list Q) :
  (forall i, 0 <= nth i l 0) -> 0 <= np_sum l.
Proof.
  induction l as [|a l IH]; intros H; simpl; [apply Qle_refl|].
  pose proof (H O) as H0. simpl in H0.
  assert (Hl : 0 <= np_sum l) by (apply IH; intros i; apply (H (S i))).
  lra.
Qed.

Section MaskKeeps.
Context {sc2 : SC2}.
Variables (m : AgentModel) (obs : TimeStep).

Lemma mask_step_available a d d' f avail :
  mask_step m obs a d = inl d' ->
  get_action m a = inl f ->
  lookup (observation obs) "available_actions" = inl avail ->
  in_array (fn_id f) avail = true ->
  d' = d.
Proof.
  unfold mask_step, bind. intros H Hf Hav Hin.
  rewrite Hf, Hav, Hin in H. cbn in H. injection H as <-. reflexivity.
Qed.

Lemma mask_loop_keeps n : forall a d out,
  for_each (seq a n) (mask_step m obs) d = inl out ->
  forall i f avail,
    get_action m i = inl f ->
    lookup (observation obs) "available_actions" = inl avail ->
    in_array (fn_id f) avail = true ->
    nth i out 0 = nth i d 0.
Proof.
  induction n as [|n IH]; intros a d out H i f avail Hf Hav Hin;
    cbn [seq for_each] in H.
  - injection H as <-. reflexivity.
  - unfold bind at 1 in H.
    destruct (mask_step m obs a d) as [d1|e] eqn:E; [|discriminate H].
    rewrite (IH (S a) d1 out H i f avail Hf Hav Hin).
    destruct (Nat.eq_dec i a) as [->|Hne].
    + rewrite (mask_step_available _ _ _ _ _ E Hf Hav Hin). reflexivity.
    + eapply mask_body_other; eassumption.
Qed.

Lemma mask_loop_entries n : forall a d out,
  for_each (seq a n) (mask_step m obs) d = inl out ->
  forall i, nth i out 0 = nth i d 0 \/ nth i out 0 = 0.
Proof.
  induction n as [|n IH]; intros a d out H i; cbn [seq for_each] in H.
  - injection H as <-. left; reflexivity.
  - unfold bind at 1 in H.
    destruct (mask_step m obs a d) as [d1|e] eqn:E; [|discriminate H].
    destruct (IH (S a) d1 out H i) as [H1|H1]; [|right; exact H1].
    rewrite H1. clear H1 H IH.
    unfold mask_step in E. inv_bind E.
    destruct (negb _); injection E as <-; [|left; reflexivity].
    destruct (Nat.eq_dec i a) as [->|Hne].
    + destruct (Nat.lt_ge_cases a (length d)) as [Hl|Hl].
      * right. apply nth_set_nth_eq. exact Hl.
      * left. rewrite !nth_overflow;
          [reflexivity | exact Hl | rewrite length_set_nth; exact Hl].
    + left. apply nth_set_nth_neq. auto.
Qed.

End MaskKeeps.

(** X16: the filter leaves the probability of every available action as
    the network gave it; when some mass is left, the renormalized entries
    are the filtered ones divided by that mass, and they are not negative
    when the probabilities of the network are not. *)
Theorem masking_keeps_available :
  forall (sc2 : SC2) (m : AgentModel) (obs : TimeStep) (dist masked : list Q),
    mask_unavailable m obs dist = inl masked ->
    (forall i f avail,
        get_action m i = inl f ->
        lookup (observation obs) "available_actions" = inl avail ->
        in_array (fn_id f) avail = true ->
        nth i masked 0 = nth i dist 0) /\
    (~ np_sum masked == 0 ->
     forall i,
       nth i (renormalize masked) 0 * np_sum masked == nth i masked 0) /\
    ((forall i, 0 <= nth i dist 0) ->
     forall i, 0 <= nth i (renormalize masked) 0).
Proof.
  intros sc2 m obs dist masked H. unfold mask_unavailable, range in H.
  assert (Hscaled : ~ np_sum masked == 0 -> forall i,
            nth i (renormalize masked) 0 * np_sum masked == nth i masked 0).
  { intros Hnz i. unfold renormalize.
    destruct (Qeq_bool (np_sum masked) 1) eqn:E1; cbn [negb andb].
    - apply Qeq_bool_iff in E1. rewrite E1. ring.
    - destruct (Qeq_bool (np_sum masked) 0) eqn:E0; cbn [negb andb].
      + apply Qeq_bool_iff in E0. contradiction.
      + destruct (Nat.lt_ge_cases i (length masked)) as [Hi|Hi].
        * rewrite (nth_indep _ 0 (0 / np_sum masked))
            by (rewrite length_map; exact Hi).
          rewrite (map_nth (fun p => p / np_sum masked)). field. exact Hnz.
        * rewrite !nth_overflow by (try rewrite length_map; exact Hi).
          ring. }
  split; [|split].
  - intros i f avail. apply (mask_loop_keeps m obs _ _ _ _ H).
  - exact Hscaled.
  - intros Hdist.
    assert (Hmasked : forall i, 0 <= nth i masked 0).
    { intros i. destruct (mask_loop_entries m obs _ _ _ _ H i) as [E|E];
        rewrite E; [apply Hdist | apply Qle_refl]. }
    pose proof (np_sum_nonneg masked Hmasked) as Hsum.
    intros i.
    destruct (Qeq_bool (np_sum masked) 0) eqn:E0.
    + apply Qeq_bool_iff in E0. rewrite (renormalize_skipped _ E0).
      apply Hmasked.
    + assert (Hnz : ~ np_sum masked == 0).
      { intros E. apply Qeq_bool_iff in E. congruence. }
      assert (Hpos : 0 < np_sum masked).
      { destruct (Qlt_le_dec 0 (np_sum masked)) as [Hp|Hp]; [exact Hp|].
        exfalso. apply Hnz. apply Qle_antisym; assumption. }
      specialize (Hscaled Hnz i). specialize (Hmasked i).
      destruct (Qlt_le_dec (nth i (renormalize masked) 0) 0) as [Hneg|Hok];
        [|exact Hok].
      exfalso.
      assert (Hprod : nth i (renormalize masked) 0 * np_sum masked < 0).
      { setoid_replace 0 with (0 * np_sum masked) at 2 by ring.
        apply Qmult_lt_compat_r; assumption. }
      lra.
Qed.

Lemma masking_keeps_available_witness :
  exists masked,
    mask_unavailable toy_model (toy_obs empty_screen [0; 3]%Z 1)
      [1 # 2; 1 # 4; 1 # 8; 1 # 8] = inl masked /\
    nth 0 masked 0 = 1 # 2 /\ nth 3 masked 0 = 1 # 8 /\
    nth 0 (renormalize masked) 0 * np_sum masked == 1 # 2 /\
    0 <= nth 3 (renormalize masked) 0.
Proof.
  destruct (mask_unavailable toy_model (toy_obs empty_screen [0; 3]%Z 1)
              [1 # 2; 1 # 4; 1 # 8; 1 # 8]) as [masked|e] eqn:E;
    [|vm_compute in E; discriminate E].
  exists masked. split; [reflexivity|].
  destruct (masking_keeps_available toy_sc2 toy_model _ _ masked E)
    as (Hkeep & Hscale & Hnonneg).
  assert (H0 : nth 0 masked 0 = 1 # 2).
  { rewrite (Hkeep 0%nat {| fn_id := 0; fn_args := [] |}
               {| shape := [2%nat]; data := [0; 3]%Z |});
      reflexivity. }
  assert (H3 : nth 3 masked 0 = 1 # 8).
  { rewrite (Hkeep 3%nat
               {| fn_id := 3; fn_args := [T_select_add; T_screen; T_screen2] |}
               {| shape := [2%nat]; data := [0; 3]%Z |});
      reflexivity. }
  split; [exact H0|]. split; [exact H3|]. split.
  - rewrite Hscale, H0; [reflexivity|].
    vm_compute in E. injection E as <-. vm_compute. discriminate.
  - apply Hnonneg. intros i.
    destruct i as [|[|[|[|[|i]]]]]; vm_compute; discriminate.
Defined.

(** ** Sampling *)





Lemma np_sum_nonneg_In (p : list Q) :
  (forall x, In x p -> 0 <= x) -> 0 <= np_sum p.
Proof.
  induction p as [|a p IH]; intros H; simpl; [apply Qle_refl|].
  assert (Ha : 0 <= a) by (apply H; left; reflexivity).
  assert (Hp : 0 <= np_sum p) by (apply IH; intros x Hx; apply H; right; exact Hx).
  lra.
Qed.















(** ** The selection of an action and of its arguments *)












Section Selection.
Context {sc2 : SC2}.
Variables (m : AgentModel) (obs : TimeStep).



End Selection.





(** ** The episode loop *)

Section EpisodeLoop.
Variables (m : AgentModel) (max_episode_length : Z) (gamma : Q).

Lemma episode_loop_cons st step v1 steps :
  episode_loop m max_episode_length gamma st ((step, v1) :: steps) =
  (if rs_episode_end step
   then (fst (record_step m max_episode_length gamma v1 st step),
         snd (record_step m max_episode_length gamma v1 st step), true)
   else
     let r := episode_loop m max_episode_length gamma
                (fst (record_step m max_episode_length gamma v1 st step))
                steps in
     (fst (fst r),
      snd (record_step m max_episode_length gamma v1 st step) ++ snd (fst r),
      snd r)).
Proof.
  cbn [episode_loop].
  destruct (record_step m max_episode_length gamma v1 st step) as [st' ev].
  cbn [fst snd]. destruct (rs_episode_end step); [reflexivity|].
  destruct (episode_loop m max_episode_length gamma st' steps) as [[st'' ev'] e].
  reflexivity.
Qed.

(** The two outcomes of the end of the loop body. *)
Lemma record_step_cases v1 st step :
  let buffer := episode_buffer st ++ [step] in
  (mid_episode_train_due m buffer (rs_episode_end step)
     (episode_step_count st + 1) max_episode_length = true /\
   episode_buffer (fst (record_step m max_episode_length gamma v1 st step))
     = skipn (length buffer / 2) buffer /\
   snd (record_step m max_episode_length gamma v1 st step)
     = [TrainCall buffer gamma v1; UpdateLocalOps]) \/
  (mid_episode_train_due m buffer (rs_episode_end step)
     (episode_step_count st + 1) max_episode_length = false /\
   episode_buffer (fst (record_step m max_episode_length gamma v1 st step))
     = buffer /\
   snd (record_step m max_episode_length gamma v1 st step) = []).
Proof.
  cbv zeta. unfold record_step.
  destruct (mid_episode_train_due _ _ _ _ _); [left | right];
    cbn [fst snd episode_buffer]; auto.
Qed.

Lemma record_step_counters v1 st step :
  let st' := fst (record_step m max_episode_length gamma v1 st step) in
  episode_values st' = episode_values st ++ [rs_v step] /\
  episode_reward st' = episode_reward st + rs_r step /\
  episode_step_count st' = (episode_step_count st + 1)%Z /\
  total_steps st' = (total_steps st + 1)%Z.
Proof.
  cbv zeta. unfold record_step.
  destruct (mid_episode_train_due _ _ _ _ _); cbn; auto.
Qed.

(** Every step of the buffer and every step recorded from here on is in
    the rollout of a call of [train] or still in the buffer. *)
Lemma episode_loop_covers steps : forall st s,
  In s (episode_buffer st ++ recorded steps) ->
  let r := episode_loop m max_episode_length gamma st steps in
  (exists rollout g b,
      In (TrainCall rollout g b) (snd (fst r)) /\ In s rollout) \/
  In s (episode_buffer (fst (fst r))).
Proof.
  induction steps as [|[step v1] steps IH]; intros st s Hs; cbv zeta.
  - cbn [recorded] in Hs. rewrite app_nil_r in Hs. right. exact Hs.
  - rewrite episode_loop_cons. cbn [recorded] in Hs.
    assert (Hstep : forall x, In x (episode_buffer st ++ [step]) ->
              (exists rollout g b,
                  In (TrainCall rollout g b)
                     (snd (record_step m max_episode_length gamma v1 st step))
                  /\ In x rollout) \/
              In x (episode_buffer
                      (fst (record_step m max_episode_length gamma v1 st step)))).
    { intros x Hx.
      destruct (record_step_cases v1 st step) as [(_ & _ & ->)|(_ & -> & _)].
      - left. exists (episode_buffer st ++ [step]), gamma, v1.
        split; [left; reflexivity | exact Hx].
      - right. exact Hx. }
    destruct (rs_episode_end step); cbn [fst snd].
    + apply Hstep. exact Hs.
    + assert (Hs' : In s ((episode_buffer st ++ [step]) ++ recorded steps)).
      { rewrite <- app_assoc. exact Hs. }
      apply in_app_or in Hs'. destruct Hs' as [Hb|Hr].
      * destruct (Hstep s Hb) as [(rollout & g & b & Hin & Hsr)|Hin].
        -- left. exists rollout, g, b. split; [|exact Hsr].
           apply in_or_app. left. exact Hin.
        -- specialize (IH _ s (in_or_app _ _ _ (or_introl Hin))).
           cbv zeta in IH.
           destruct IH as [(rollout & g & b & Hin' & Hsr)|Hin']; [|right; exact Hin'].
           left. exists rollout, g, b. split; [|exact Hsr].
           apply in_or_app. right. exact Hin'.
      * specialize (IH (fst (record_step m max_episode_length gamma v1 st step))
                       s (in_or_app _ _ _ (or_intror Hr))).
        cbv zeta in IH.
        destruct IH as [(rollout & g & b & Hin' & Hsr)|Hin']; [|right; exact Hin'].
        left. exists rollout, g, b. split; [|exact Hsr].
        apply in_or_app. right. exact Hin'.
Qed.

Lemma episode_loop_ended steps : forall st,
  snd (episode_loop m max_episode_length gamma st steps)
  = existsb (fun s => rs_episode_end (fst s)) steps.
Proof.
  induction steps as [|[step v1] steps IH]; intros st; [reflexivity|].
  rewrite episode_loop_cons. cbn [existsb fst].
  destruct (rs_episode_end step); [reflexivity|]. cbn [snd orb]. apply IH.
Qed.

Lemma episode_loop_counters steps : forall st,
  let st' := fst (fst (episode_loop m max_episode_length gamma st steps)) in
  episode_values st' = episode_values st ++ map rs_v (recorded steps) /\
  episode_reward st' == episode_reward st + np_sum (map rs_r (recorded steps)) /\
  episode_step_count st'
    = (episode_step_count st + Z.of_nat (length (recorded steps)))%Z /\
  total_steps st'
    = (total_steps st + Z.of_nat (length (recorded steps)))%Z.
Proof.
  induction steps as [|[step v1] steps IH]; intros st; cbv zeta.
  - cbn. rewrite app_nil_r. repeat split; try lia. ring.
  - rewrite episode_loop_cons. cbn [recorded].
    destruct (record_step_counters v1 st step) as (Hv & Hr & Hc & Ht).
    destruct (rs_episode_end step); cbn [fst snd].
    + rewrite Hv, Hr, Hc, Ht. cbn [map length np_sum fold_right].
      repeat split; try lia. unfold np_sum. cbn. ring.
    + destruct (IH (fst (record_step m max_episode_length gamma v1 st step)))
        as (Hv' & Hr' & Hc' & Ht').
      rewrite Hv', Hr', Hc', Ht', Hv, Hr, Hc, Ht.
      cbn [map length]. rewrite <- app_assoc. cbn [app].
      repeat split; try lia.
      unfold np_sum. cbn [fold_right]. ring.
Qed.

End EpisodeLoop.

Section EpisodeLoopProperties.
Variables (m : AgentModel) (max_episode_length : Z) (gamma : Q).

Lemma mid_episode_train_due_end buffer count :
  mid_episode_train_due m buffer true count max_episode_length = false.
Proof.
  unfold mid_episode_train_due. cbn [negb].
  rewrite andb_false_r. reflexivity.
Qed.

Lemma mid_episode_train_due_length buffer episode_end count :
  mid_episode_train_due m buffer episode_end count max_episode_length = true ->
  length buffer = max_episodes_kept m /\ episode_end = false /\
  count <> (max_episode_length - 1)%Z.
Proof.
  unfold mid_episode_train_due. intros H.
  apply andb_true_iff in H. destruct H as [H H3].
  apply andb_true_iff in H. destruct H as [H1 H2].
  apply Nat.eqb_eq in H1. apply negb_true_iff in H2, H3.
  apply Z.eqb_neq in H3. auto.
Qed.

(** When the loop is left, the step that ended the episode is in the
    buffer. *)
Lemma episode_loop_ended_buffer steps : forall st,
  snd (episode_loop m max_episode_length gamma st steps) = true ->
  episode_buffer (fst (fst (episode_loop m max_episode_length gamma st steps)))
  <> [].
Proof.
  induction steps as [|[step v1] steps IH]; intros st H; [discriminate H|].
  rewrite episode_loop_cons in *.
  destruct (rs_episode_end step) eqn:Eend; cbn [fst snd] in *.
  - destruct (record_step_cases m max_episode_length gamma v1 st step)
      as [(Hdue & _)|(_ & -> & _)].
    + rewrite Eend, mid_episode_train_due_end in Hdue. discriminate Hdue.
    + intros Hnil. apply app_eq_nil in Hnil. destruct Hnil as [_ Hnil].
      discriminate Hnil.
  - apply IH. exact H.
Qed.

Lemma skipn_suffix {A : Type} (p l : list A) :
  skipn (length (p ++ l) - length l) (p ++ l) = l.
Proof.
  rewrite length_app.
  replace (length p + length l - length l)%nat with (length p + 0)%nat by lia.
  rewrite skipn_app, Nat.add_0_r, skipn_all.
  replace (length p - length p)%nat with 0%nat by lia. reflexivity.
Qed.

(** Every rollout trained on in the middle of an episode is made of the
    last [max_episodes_kept] steps of the history. *)
Lemma episode_loop_rollouts steps : forall st hist p rollout g b,
  hist = p ++ episode_buffer st ->
  In (TrainCall rollout g b)
     (snd (fst (episode_loop m max_episode_length gamma st steps))) ->
  g = gamma /\ length rollout = max_episodes_kept m /\
  exists pre step post,
    steps = pre ++ (step, b) :: post /\
    rollout = skipn (length (hist ++ map fst pre ++ [step])
                     - max_episodes_kept m)
                    (hist ++ map fst pre ++ [step]).
Proof.
  induction steps as [|[step v1] steps IH]; intros st hist p rollout g b Hh Hin;
    [destruct Hin|].
  rewrite episode_loop_cons in Hin.
  assert (Hfirst :
            In (TrainCall rollout g b)
               (snd (record_step m max_episode_length gamma v1 st step)) ->
            g = gamma /\ length rollout = max_episodes_kept m /\
            exists pre step0 post,
              (step, v1) :: steps = pre ++ (step0, b) :: post /\
              rollout = skipn (length (hist ++ map fst pre ++ [step0])
                               - max_episodes_kept m)
                              (hist ++ map fst pre ++ [step0])).
  { intros H1.
    destruct (record_step_cases m max_episode_length gamma v1 st step)
      as [(Hdue & _ & Hev)|(_ & _ & Hev)]; rewrite Hev in H1;
      [|destruct H1].
    destruct H1 as [H1|[H1|[]]]; [|discriminate H1].
    injection H1 as <- <- <-.
    destruct (mid_episode_train_due_length _ _ _ Hdue) as (HL & _).
    split; [reflexivity|]. split; [exact HL|].
    exists [], step, steps. split; [reflexivity|].
    cbn [map app]. rewrite Hh, <- app_assoc, <- HL.
    symmetry. apply skipn_suffix. }
  assert (Hrest :
            In (TrainCall rollout g b)
               (snd (fst (episode_loop m max_episode_length gamma
                            (fst (record_step m max_episode_length gamma v1
                                    st step)) steps))) ->
            g = gamma /\ length rollout = max_episodes_kept m /\
            exists pre step0 post,
              (step, v1) :: steps = pre ++ (step0, b) :: post /\
              rollout = skipn (length (hist ++ map fst pre ++ [step0])
                               - max_episodes_kept m)
                              (hist ++ map fst pre ++ [step0])).
  { intros H1.
    assert (Hsuf : exists p', hist ++ [step] =
                     p' ++ episode_buffer
                             (fst (record_step m max_episode_length gamma v1
                                     st step))).
    { destruct (record_step_cases m max_episode_length gamma v1 st step)
        as [(_ & -> & _)|(_ & -> & _)].
      - set (buffer := episode_buffer st ++ [step]).
        exists (p ++ firstn (length buffer / 2) buffer).
        rewrite <- app_assoc, firstn_skipn. unfold buffer.
        rewrite Hh, <- app_assoc. reflexivity.
      - exists p. rewrite Hh, <- app_assoc. reflexivity. }
    destruct Hsuf as [p' Hp'].
    destruct (IH _ (hist ++ [step]) p' rollout g b Hp' H1)
      as (Hg & HL & pre & step0 & post & Hsteps & Hr).
    split; [exact Hg|]. split; [exact HL|].
    exists ((step, v1) :: pre), step0, post. split.
    - rewrite Hsteps. reflexivity.
    - rewrite Hr. cbn [map fst app]. rewrite <- !app_assoc. reflexivity. }
  destruct (rs_episode_end step); cbn [fst snd] in Hin.
  - apply Hfirst. exact Hin.
  - apply in_app_or in Hin. destruct Hin as [H1|H1]; auto.
Qed.

Lemma episode_loop_bounded steps : forall st,
  (2 <= max_episodes_kept m)%nat ->
  (length (episode_buffer st) < max_episodes_kept m)%nat ->
  (episode_step_count st + Z.of_nat (length steps) < max_episode_length - 1)%Z ->
  let r := episode_loop m max_episode_length gamma st steps in
  (length (episode_buffer (fst (fst r))) <= max_episodes_kept m)%nat /\
  (snd r = false ->
   (length (episode_buffer (fst (fst r))) < max_episodes_kept m)%nat).
Proof.
  induction steps as [|[step v1] steps IH]; intros st HC Hlen Hcount; cbv zeta.
  - cbn. split; [lia | intros _; exact Hlen].
  - rewrite episode_loop_cons.
    destruct (record_step_counters m max_episode_length gamma v1 st step)
      as (_ & _ & Hc & _).
    cbn [length] in Hcount.
    assert (Hb : (length (episode_buffer
                            (fst (record_step m max_episode_length gamma v1
                                    st step))) <= max_episodes_kept m)%nat /\
                 (rs_episode_end step = false ->
                  (length (episode_buffer
                             (fst (record_step m max_episode_length gamma v1
                                     st step))) < max_episodes_kept m)%nat)).
    { destruct (record_step_cases m max_episode_length gamma v1 st step)
        as [(Hdue & -> & _)|(Hdue & -> & _)].
      - destruct (mid_episode_train_due_length _ _ _ Hdue) as (HL & _).
        rewrite length_skipn, HL.
        assert (Hhalf : (1 <= max_episodes_kept m / 2)%nat)
          by (apply Nat.div_le_lower_bound; lia).
        split; [lia | intros _; lia].
      - rewrite length_app. cbn [length]. split; [lia|].
        intros Hend.
        destruct (Nat.eq_dec (length (episode_buffer st) + 1)
                             (max_episodes_kept m)) as [Heq|Hne]; [|lia].
        exfalso. unfold mid_episode_train_due in Hdue.
        rewrite length_app, Hend in Hdue. cbn [length negb] in Hdue.
        apply Nat.eqb_eq in Heq. rewrite Heq in Hdue. cbn [andb] in Hdue.
        apply negb_false_iff, Z.eqb_eq in Hdue. lia. }
    destruct Hb as [Hle Hlt].
    destruct (rs_episode_end step); cbn [fst snd].
    + split; [exact Hle | discriminate].
    + apply (IH _ HC (Hlt eq_refl)). rewrite Hc. lia.
Qed.

Lemma episode_loop_over_capacity steps : forall st,
  (max_episodes_kept m <= length (episode_buffer st))%nat ->
  let r := episode_loop m max_episode_length gamma st steps in
  snd (fst r) = [] /\
  episode_buffer (fst (fst r)) = episode_buffer st ++ recorded steps.
Proof.
  induction steps as [|[step v1] steps IH]; intros st Hlen; cbv zeta.
  - cbn. rewrite app_nil_r. auto.
  - rewrite episode_loop_cons. cbn [recorded].
    destruct (record_step_cases m max_episode_length gamma v1 st step)
      as [(Hdue & _)|(_ & Hbuf & Hev)].
    { destruct (mid_episode_train_due_length _ _ _ Hdue) as (HL & _).
      rewrite length_app in HL. cbn [length] in HL. lia. }
    destruct (rs_episode_end step); cbn [fst snd].
    + rewrite Hev, Hbuf. auto.
    + destruct (IH (fst (record_step m max_episode_length gamma v1 st step)))
        as [Hev' Hbuf'].
      { rewrite Hbuf, length_app. cbn [length]. lia. }
      rewrite Hev, Hev', Hbuf', Hbuf, <- app_assoc. auto.
Qed.

End EpisodeLoopProperties.

(** X22: in an episode that comes to its end every recorded step is in the
    rollout of at least one call of [train]; the calls of the episode start
    with the copy of the global parameters and end with the call of
    [train] on what is left in the buffer, which is not empty, with
    bootstrap value 0. *)
Theorem every_recorded_step_is_trained :
  forall (m : AgentModel) (max_episode_length : Z) (gamma : Q) (total : Z)
         (steps : list (RolloutStep * Q)) (st : EpisodeState)
         (events : list Event),
    work_episode m max_episode_length gamma total false steps
      = (st, events, true) ->
    (forall s, In s (recorded steps) ->
       exists rollout g b,
         In (TrainCall rollout g b) events /\ In s rollout) /\
    episode_buffer st <> [] /\
    exists events',
      events = UpdateLocalOps :: events'
               ++ [TrainCall (episode_buffer st) gamma 0].
Proof.
  intros m max_episode_length gamma total steps st events H.
  unfold work_episode in H.
  pose proof (episode_loop_covers m max_episode_length gamma steps
                (start_of_episode total)) as Hcov.
  pose proof (episode_loop_ended_buffer m max_episode_length gamma steps
                (start_of_episode total)) as Hne.
  destruct (episode_loop m max_episode_length gamma (start_of_episode total)
              steps) as [[st' ev] ended].
  cbn [fst snd] in *. injection H as <- <- ->.
  specialize (Hne eq_refl).
  assert (Hend : end_of_episode_train gamma st'
                 = [TrainCall (episode_buffer st') gamma 0]).
  { unfold end_of_episode_train.
    destruct (episode_buffer st'); [congruence | reflexivity]. }
  rewrite Hend. split; [|split; [exact Hne | exists ev; reflexivity]].
  intros s Hs. destruct (Hcov s Hs) as [(rollout & g & b & Hin & Hsr)|Hin].
  - exists rollout, g, b. split; [|exact Hsr].
    right. apply in_or_app. left. exact Hin.
  - exists (episode_buffer st'), gamma, 0. split; [|exact Hin].
    right. apply in_or_app. right. left. reflexivity.
Qed.

(** X23: a call of [train] in the middle of an episode gets the discount
    factor of the worker and a rollout of exactly [max_episodes_kept]
    steps, the last ones recorded up to the current step, with the value of
    the state the current step leads to as bootstrap value. *)
Theorem mid_episode_rollouts_are_latest_steps :
  forall (m : AgentModel) (max_episode_length : Z) (gamma : Q) (total : Z)
         (steps : list (RolloutStep * Q))
         (rollout : list RolloutStep) (g b : Q),
    In (TrainCall rollout g b)
       (snd (fst (episode_loop m max_episode_length gamma
                    (start_of_episode total) steps))) ->
    g = gamma /\ length rollout = max_episodes_kept m /\
    exists pre step post,
      steps = pre ++ (step, b) :: post /\
      rollout = skipn (length (map fst pre ++ [step]) - max_episodes_kept m)
                      (map fst pre ++ [step]).
Proof.
  intros m max_episode_length gamma total steps rollout g b H.
  exact (episode_loop_rollouts m max_episode_length gamma steps
           (start_of_episode total) [] [] rollout g b eq_refl H).
Qed.

(** X24: with [max_episodes_kept] at least 2 and as long as the step count
    stays below [max_episode_length - 1], the buffer never holds more than
    [max_episodes_kept] steps, and fewer than that whenever the loop goes
    on. *)
Theorem buffer_within_capacity :
  forall (m : AgentModel) (max_episode_length : Z) (gamma : Q)
         (st : EpisodeState) (steps : list (RolloutStep * Q)),
    (2 <= max_episodes_kept m)%nat ->
    (length (episode_buffer st) < max_episodes_kept m)%nat ->
    (episode_step_count st + Z.of_nat (length steps)
     < max_episode_length - 1)%Z ->
    let r := episode_loop m max_episode_length gamma st steps in
    (length (episode_buffer (fst (fst r))) <= max_episodes_kept m)%nat /\
    (snd r = false ->
     (length (episode_buffer (fst (fst r))) < max_episodes_kept m)%nat).
Proof.
  intros m max_episode_length gamma st steps.
  apply episode_loop_bounded.
Qed.

(** X25: once the buffer holds [max_episodes_kept] steps or more, which
    happens when it becomes full at the step numbered
    [max_episode_length - 1], no update is made in the middle of the
    episode any more: the buffer keeps every further step until the
    episode ends. *)
Theorem no_mid_episode_train_over_capacity :
  forall (m : AgentModel) (max_episode_length : Z) (gamma : Q)
         (st : EpisodeState) (steps : list (RolloutStep * Q)),
    ((max_episodes_kept m <= length (episode_buffer st))%nat \/
     (length (episode_buffer st) + 1 = max_episodes_kept m)%nat /\
     (episode_step_count st + 1 = max_episode_length - 1)%Z) ->
    let r := episode_loop m max_episode_length gamma st steps in
    snd (fst r) = [] /\
    episode_buffer (fst (fst r)) = episode_buffer st ++ recorded steps.
Proof.
  intros m max_episode_length gamma st steps [H|[HL HC]].
  - apply episode_loop_over_capacity. exact H.
  - cbv zeta. destruct steps as [|[step v1] steps].
    + cbn. rewrite app_nil_r. auto.
    + rewrite episode_loop_cons. cbn [recorded].
      destruct (record_step_cases m max_episode_length gamma v1 st step)
        as [(Hdue & _)|(_ & Hbuf & Hev)].
      { destruct (mid_episode_train_due_length _ _ _ _ _ Hdue) as (_ & _ & Hn).
        contradiction. }
      destruct (rs_episode_end step); cbn [fst snd].
      * rewrite Hev, Hbuf. auto.
      * destruct (episode_loop_over_capacity m max_episode_length gamma steps
                    (fst (record_step m max_episode_length gamma v1 st step)))
          as [Hev' Hbuf'].
        { rewrite Hbuf, length_app. cbn [length]. lia. }
        rewrite Hev, Hev', Hbuf', Hbuf, <- app_assoc. auto.
Qed.

(** X26: the loop of an episode is left at the first step that ends the
    episode and at no other, whatever [max_episode_length]; the step count
    is the number of steps recorded, [total_steps] has grown by it, the
    values are those of the recorded steps and the reward of the episode is
    the sum of theirs. *)
Theorem episode_accounting :
  forall (m : AgentModel) (max_episode_length : Z) (gamma : Q) (total : Z)
         (steps : list (RolloutStep * Q)),
    let r := episode_loop m max_episode_length gamma
               (start_of_episode total) steps in
    snd r = existsb (fun s => rs_episode_end (fst s)) steps /\
    episode_step_count (fst (fst r)) = Z.of_nat (length (recorded steps)) /\
    total_steps (fst (fst r))
      = (total + Z.of_nat (length (recorded steps)))%Z /\
    episode_values (fst (fst r)) = map rs_v (recorded steps) /\
    episode_reward (fst (fst r)) == np_sum (map rs_r (recorded steps)).
Proof.
  intros m max_episode_length gamma total steps. cbv zeta.
  split; [apply episode_loop_ended|].
  destruct (episode_loop_counters m max_episode_length gamma steps
              (start_of_episode total)) as (Hv & Hr & Hc & Ht).
  cbn [start_of_episode episode_values episode_reward episode_step_count
       total_steps app] in *.
  split; [rewrite Hc; lia|]. split; [exact Ht|]. split; [exact Hv|].
  rewrite Hr. ring.
Qed.

Lemma every_recorded_step_is_trained_witness :
  let steps := [(toy_step 1 0, 0); (toy_step 2 0, 0); (toy_last_step 3 0, 0)] in
  let r := work_episode toy_model_2 300 (1 # 2) 0 false steps in
  exists rollout g b,
    In (TrainCall rollout g b) (snd (fst r)) /\ In (toy_step 1 0) rollout.
Proof.
  intros steps r.
  assert (H : work_episode toy_model_2 300 (1 # 2) 0 false steps
              = (fst (fst r), snd (fst r), true))
    by (vm_compute; reflexivity).
  destruct (every_recorded_step_is_trained _ _ _ _ _ _ _ H) as [Hc _].
  apply Hc. left. reflexivity.
Defined.

Lemma mid_episode_rollouts_are_latest_steps_witness :
  (1 # 2) = (1 # 2) /\
  length [toy_step 1 0; toy_step 2 0] = max_episodes_kept toy_model_2 /\
  exists pre step post,
    [(toy_step 1 0, 5); (toy_step 2 0, 7); (toy_step 3 0, 9)]
      = pre ++ (step, 7) :: post /\
    [toy_step 1 0; toy_step 2 0]
      = skipn (length (map fst pre ++ [step]) - max_episodes_kept toy_model_2)
              (map fst pre ++ [step]).
Proof.
  apply (mid_episode_rollouts_are_latest_steps toy_model_2 300 (1 # 2) 0
           [(toy_step 1 0, 5); (toy_step 2 0, 7); (toy_step 3 0, 9)]
           [toy_step 1 0; toy_step 2 0] (1 # 2) 7).
  vm_compute. left. reflexivity.
Defined.

Lemma buffer_within_capacity_witness :
  let r := episode_loop toy_model_2 300 (1 # 2) (start_of_episode 0)
             [(toy_step 1 0, 5); (toy_step 2 0, 7); (toy_step 3 0, 9)] in
  (length (episode_buffer (fst (fst r))) <= max_episodes_kept toy_model_2)%nat /\
  (snd r = false ->
   (length (episode_buffer (fst (fst r))) < max_episodes_kept toy_model_2)%nat).
Proof.
  apply (buffer_within_capacity toy_model_2 300 (1 # 2) (start_of_episode 0)
           [(toy_step 1 0, 5); (toy_step 2 0, 7); (toy_step 3 0, 9)]).
  - vm_compute. lia.
  - vm_compute. lia.
  - vm_compute. reflexivity.
Defined.

Lemma no_mid_episode_train_over_capacity_witness :
  let r := episode_loop toy_model_2 3 (1 # 2)
             (fst (record_step toy_model_2 3 (1 # 2) 5 (start_of_episode 0)
                     (toy_step 1 0)))
             [(toy_step 2 0, 7); (toy_step 3 0, 9); (toy_step 4 0, 11)] in
  snd (fst r) = [] /\
  episode_buffer (fst (fst r))
  = [toy_step 1 0; toy_step 2 0; toy_step 3 0; toy_step 4 0].
Proof.
  apply (no_mid_episode_train_over_capacity toy_model_2 3 (1 # 2)
           (fst (record_step toy_model_2 3 (1 # 2) 5 (start_of_episode 0)
                   (toy_step 1 0)))
           [(toy_step 2 0, 7); (toy_step 3 0, 9); (toy_step 4 0, 11)]).
  right. split; vm_compute; reflexivity.
Defined.

(** ** The scores *)

Lemma update_scores_average (rewards : list Q) : forall (s : Scores) (total : Q),
  (0 <= episode_count s)%Z ->
  _running_avg_score s * inject_Z (episode_count s) == total ->
  let s' := fold_left update_scores rewards s in
  episode_count s' = (episode_count s + Z.of_nat (length rewards))%Z /\
  _running_avg_score s' * inject_Z (episode_count s')
  == total + np_sum rewards.
Proof.
  induction rewards as [|r rewards IH]; intros s total Hc Ht; cbv zeta.
  - cbn. split; [lia | rewrite Ht; ring].
  - cbn [fold_left].
    destruct (IH (update_scores s r) (total + r)) as [Hcount Havg].
    + cbn [update_scores episode_count]. lia.
    + cbn [update_scores episode_count _running_avg_score].
      assert (Hpos : (episode_count s + 1 >? 0)%Z = true)
        by (apply Z.gtb_lt; lia).
      rewrite Hpos. rewrite inject_Z_plus.
      change (inject_Z 1) with 1.
      assert (Hnz : ~ inject_Z (episode_count s) + 1 == 0).
      { assert (H0 : 0 <= inject_Z (episode_count s)).
        { change 0 with (inject_Z 0). rewrite <- Zle_Qle. exact Hc. }
        lra. }
      rewrite <- Ht. field. exact Hnz.
    + split.
      * rewrite Hcount. cbn [update_scores episode_count length]. lia.
      * rewrite Havg. unfold np_sum. cbn [fold_right]. ring.
Qed.

Lemma update_scores_max (rewards : list Q) : forall (s : Scores),
  let s' := fold_left update_scores rewards s in
  _max_score s <= _max_score s' /\
  (forall r, In r rewards -> r <= _max_score s') /\
  (_max_score s' = _max_score s \/ In (_max_score s') rewards).
Proof.
  induction rewards as [|r rewards IH]; intros s; cbv zeta.
  - cbn. split; [apply Qle_refl|]. split; [intros r []|left; reflexivity].
  - cbn [fold_left]. destruct (IH (update_scores s r)) as (Hle & Hall & Hin).
    assert (Hstep : _max_score s <= _max_score (update_scores s r) /\
                    r <= _max_score (update_scores s r) /\
                    (_max_score (update_scores s r) = _max_score s \/
                     _max_score (update_scores s r) = r)).
    { cbn [update_scores _max_score].
      destruct (Qltb (_max_score s) r) eqn:E.
      - apply Qltb_true in E. split; [apply Qlt_le_weak; exact E|].
        split; [apply Qle_refl | right; reflexivity].
      - split; [apply Qle_refl|]. split; [|left; reflexivity].
        destruct (Qlt_le_dec (_max_score s) r) as [Hlt|Hge]; [|exact Hge].
        apply Qltb_true in Hlt. congruence. }
    destruct Hstep as (H1 & H2 & H3).
    split; [eapply Qle_trans; eassumption|]. split.
    + intros x [<-|Hx]; [eapply Qle_trans; eassumption | apply Hall; exact Hx].
    + destruct Hin as [Hin|Hin].
      * rewrite Hin. destruct H3 as [H3|H3]; [left; exact H3|].
        right. left. symmetry. exact H3.
      * right. right. exact Hin.
Qed.

(** X27: for a single worker that starts from the scores [main] sets, after
    any number of episodes [episode_count] is the number of episodes,
    [_running_avg_score] is the arithmetic mean of the episode rewards, and
    [_max_score] is the largest of 0 and the episode rewards: it is never
    below 0, also when every reward is negative. *)
Theorem scores_after_episodes :
  forall (rewards : list Q),
    let s := fold_left update_scores rewards initial_scores in
    episode_count s = Z.of_nat (length rewards) /\
    _running_avg_score s * inject_Z (Z.of_nat (length rewards))
      == np_sum rewards /\
    0 <= _max_score s /\
    (forall r, In r rewards -> r <= _max_score s) /\
    (_max_score s = 0 \/ In (_max_score s) rewards).
Proof.
  intros rewards. cbv zeta.
  destruct (update_scores_average rewards initial_scores 0) as [Hc Ha].
  - cbn. lia.
  - cbn. ring.
  - destruct (update_scores_max rewards initial_scores) as (Hle & Hall & Hin).
    cbn [initial_scores episode_count _max_score] in *.
    split; [rewrite Hc; lia|]. split.
    + rewrite Hc in Ha. rewrite Z.add_0_l in Ha. rewrite Ha. ring.
    + split; [exact Hle|]. split; [exact Hall | exact Hin].
Qed.

(** ** The size of the stack *)


